(** * NebulaAudio: swing-fade volume transitions and the indexed listener registry

    A shallow embedding of [src/index.js] (class [NebulaAudio]).

    Conventions of the embedding.
    - The player is modelled twice.  Where only the control flow matters
      (promises, timers, the order of the calls on the element, the registry)
      a finite number is a real number ([Num r]); the only non-finite value
      the program can produce from finite arguments is [NaN] (the cosine of
      [tick / 0]).  Where the value of a number matters (how many ticks a fade
      has, which volumes it writes) the fader is modelled again in module
      [Binary64], with numbers as IEEE binary64 floats and their rounded
      operations.
    - The wrapped [Audio] element is the record of mutable fields the class
      reads and writes, and an assignment to a field stores the value; every
      operation the fader and the registry perform on it is appended to
      [calls], oldest first.
    - [setInterval] timers and the promise each fade returns are kept in the
      table [fades]; a timer callback runs when [fire] is applied to its
      index.  Reactions registered with [.then] run from the microtask queue,
      which [drain] empties.
    - Event names are names of media events; properties inherited by the
      object literal [{}] are not event names. *)

From Stdlib Require Import Reals Lra ZArith Lia.
From stdpp Require Import gmap strings list.
From Stdlib Require Import Floats.

(** ** JavaScript numbers *)

Inductive jsnum : Type :=
| Num (r : R)
| NaN.

#[global] Instance R_eq_dec : EqDecision R := Req_dec_T.
#[global] Instance Rlt_decision (x y : R) : Decision (x < y)%R := Rlt_dec x y.

Definition js_add (a b : jsnum) : jsnum :=
  match a, b with
  | Num x, Num y => Num (x + y)
  | _, _ => NaN
  end.

Definition js_sub (a b : jsnum) : jsnum :=
  match a, b with
  | Num x, Num y => Num (x - y)
  | _, _ => NaN
  end.

Definition js_mul (a b : jsnum) : jsnum :=
  match a, b with
  | Num x, Num y => Num (x * y)
  | _, _ => NaN
  end.

(** [!x] on a number: true for [0] and for [NaN]. *)
Definition js_not (a : jsnum) : bool :=
  match a with
  | Num x => bool_decide (x = 0%R)
  | NaN => true
  end.

(** ** The wrapped audio element *)

(** A handler is a function object; only its identity matters. *)
Inductive handler : Type := Fn (id : nat).

#[global] Instance handler_eq_dec : EqDecision handler.
Proof. solve_decision. Defined.

Record Audio : Type := mkAudio {
  volume : jsnum;
  paused : bool;
  audio_src : string;
  listeners : list (string * handler)
}.

(** Operations performed on the audio element, in the order they happen. *)
Inductive call : Type :=
| SetVolume (v : jsnum)
| SetSrc (url : string)
| Load
| Play
| AddEventListener (event : string) (h : handler)
| RemoveEventListener (event : string) (h : option handler).

(** ** Promises, timers and the player *)

Inductive js_error : Type := Error (message : string).

(** What runs when a promise is fulfilled: the arrow function of [set src]. *)
Inductive reaction : Type := SwapSource (url : string).

(** One in-flight fade: the closure of its timer callback ([originalVolume],
    [delta], [ticks], the mutable [tick]), whether its interval timer is still
    set, and its promise ([resolved], with the reactions waiting on it). *)
Record Fade : Type := mkFade {
  originalVolume : jsnum;
  delta : jsnum;
  ticks : Z;
  tick : Z;
  intervalMs : R;
  running : bool;
  resolved : bool;
  waiting : list reaction
}.

(** The promise [setVolume] returns. *)
Inductive promise : Type :=
| Fulfilled
| Rejected (e : js_error)
| OfFade (id : nat).

Inductive settlement : Type :=
| IsPending
| IsFulfilled
| IsRejected (e : js_error).

(** An array element: a handler, [null], or an empty slot of a sparse array. *)
Inductive slot : Type :=
| Handler (h : handler)
| Null
| Hole.

#[global] Instance slot_eq_dec : EqDecision slot.
Proof. solve_decision. Defined.

Record Player : Type := mkPlayer {
  _audio : Audio;
  _eventHandlers : gmap string (list slot);
  fades : list Fade;
  microtasks : list reaction;
  calls : list call
}.

Definition with_audio (a : Audio) (p : Player) : Player :=
  mkPlayer a (_eventHandlers p) (fades p) (microtasks p) (calls p).

Definition with_eventHandlers (m : gmap string (list slot)) (p : Player) : Player :=
  mkPlayer (_audio p) m (fades p) (microtasks p) (calls p).

Definition with_fades (fs : list Fade) (p : Player) : Player :=
  mkPlayer (_audio p) (_eventHandlers p) fs (microtasks p) (calls p).

Definition with_microtasks (q : list reaction) (p : Player) : Player :=
  mkPlayer (_audio p) (_eventHandlers p) (fades p) q (calls p).

Definition log (c : call) (p : Player) : Player :=
  mkPlayer (_audio p) (_eventHandlers p) (fades p) (microtasks p) (calls p ++ [c]).

(** [new Audio(url)]: full volume, paused, no listeners. *)
Definition new_audio (url : string) : Audio := mkAudio (Num 1) true url [].

(** [constructor(url)]: the source is loaded when a URL is given. *)
Definition constructor (url : string) : Player :=
  let p := mkPlayer (new_audio url) ∅ [] [] [] in
  if decide (url = "") then p else log Load p.

(** *** Field writes and method calls on the element *)

Definition write_volume (v : jsnum) (p : Player) : Player :=
  let a := _audio p in
  log (SetVolume v) (with_audio (mkAudio v (paused a) (audio_src a) (listeners a)) p).

Definition write_src (url : string) (p : Player) : Player :=
  let a := _audio p in
  log (SetSrc url) (with_audio (mkAudio (volume a) (paused a) url (listeners a)) p).

Definition play (p : Player) : Player :=
  let a := _audio p in
  log Play (with_audio (mkAudio (volume a) false (audio_src a) (listeners a)) p).

(** [get isPlaying] *)
Definition isPlaying (p : Player) : bool := negb (paused (_audio p)).

(** A listener already registered for the same event is not added twice. *)
Definition addEventListener (event : string) (h : handler) (p : Player) : Player :=
  let a := _audio p in
  let ls := if decide ((event, h) ∈ listeners a) then listeners a
            else listeners a ++ [(event, h)] in
  log (AddEventListener event h)
      (with_audio (mkAudio (volume a) (paused a) (audio_src a) ls) p).

(** Removing [null] or [undefined] removes nothing. *)
Definition removeEventListener (event : string) (h : option handler) (p : Player) : Player :=
  let a := _audio p in
  let ls := match h with
            | Some f => filter (λ l, l ≠ (event, f)) (listeners a)
            | None => listeners a
            end in
  log (RemoveEventListener event h)
      (with_audio (mkAudio (volume a) (paused a) (audio_src a) ls) p).

(** ** VolumeFader *)

Definition default_fadeMs : R := 1500.
Definition default_intervalMs : R := 13.

Definition out_of_range : js_error :=
  Error "New volume is outside of allowed range (0-100)".

(** [0.5 - Math.cos((tick / ticks) * Math.PI) / 2].  With [ticks = 0] the
    quotient [tick / ticks] is infinite (or [0 / 0]) and its cosine is NaN. *)
Definition swing (tick ticks : Z) : jsnum :=
  if decide (ticks = 0%Z) then NaN
  else Num (0.5 - cos (IZR tick / IZR ticks * PI) / 2).

(** [async setVolume(newVolume, fadeMs = 1500, intervalMs = 13)].  The
    function is [async]: whatever happens, the caller gets a promise. *)
Definition setVolume (newVolume fadeMs intervalMs : R) (p : Player) : promise * Player :=
  if bool_decide (newVolume < 0)%R || bool_decide (100 < newVolume)%R
  then (Rejected out_of_range, p)
  else
    let newVolume := (newVolume / 100)%R in
    let originalVolume := volume (_audio p) in
    let delta := js_sub (Num newVolume) originalVolume in
    if js_not delta || js_not (Num fadeMs) || js_not (Num intervalMs)
    then (Fulfilled, write_volume (Num newVolume) p)
    else
      let ticks := Zfloor (fadeMs / intervalMs) in
      let timer := length (fades p) in
      (OfFade timer,
       with_fades (fades p ++ [mkFade originalVolume delta ticks 1 intervalMs true false []]) p).

(** The closure of a timer callback after [++tick]. *)
Definition at_tick (t : Z) (f : Fade) : Fade :=
  mkFade (originalVolume f) (delta f) (ticks f) t (intervalMs f)
    (running f) (resolved f) (waiting f).

(** [clearInterval(timer); resolve()]: the timer is gone, the promise is
    fulfilled and its reactions have been handed to the microtask queue. *)
Definition finished (f : Fade) : Fade :=
  mkFade (originalVolume f) (delta f) (ticks f) (tick f) (intervalMs f) false true [].

(** The function given to [setInterval], for the fade stored at [timer]. *)
Definition timer_callback (timer : nat) (f : Fade) (p : Player) : Player :=
  let p := write_volume
             (js_add (originalVolume f) (js_mul (swing (tick f) (ticks f)) (delta f))) p in
  let f := at_tick (tick f + 1) f in
  if decide (tick f = ticks f + 1)%Z
  then
    with_microtasks (microtasks p ++ waiting f)
      (with_fades (<[timer := finished f]> (fades p)) p)
  else with_fades (<[timer := f]> (fades p)) p.

(** The arrow function [set src] passes to [.then]. *)
Definition run_reaction (r : reaction) (p : Player) : Player :=
  match r with
  | SwapSource url =>
      let fadeMs := 1500%R in
      let isPlaying := isPlaying p in
      let p := write_src url p in
      let p := if isPlaying then play p else p in
      (setVolume 100 fadeMs default_intervalMs p).2
  end.

(** Run the queued reactions, oldest first.  No reaction queues another. *)
Definition drain (p : Player) : Player :=
  foldl (λ q r, run_reaction r q) (with_microtasks [] p) (microtasks p).

(** One expiry of the interval timer [timer], followed by the microtasks. *)
Definition fire (timer : nat) (p : Player) : Player :=
  match fades p !! timer with
  | Some f => if running f then drain (timer_callback timer f p) else p
  | None => p
  end.

(** [k] successive expiries of the same timer. *)
Fixpoint fire_n (k : nat) (timer : nat) (p : Player) : Player :=
  match k with
  | O => p
  | S k' => fire_n k' timer (fire timer p)
  end.

Definition state_of (pr : promise) (p : Player) : settlement :=
  match pr with
  | Fulfilled => IsFulfilled
  | Rejected e => IsRejected e
  | OfFade id =>
      match fades p !! id with
      | Some f => if resolved f then IsFulfilled else IsPending
      | None => IsPending
      end
  end.

(** [pr.then(r)] with a fulfilment reaction only. *)
Definition then_ (pr : promise) (r : reaction) (p : Player) : Player :=
  match pr with
  | Fulfilled => with_microtasks (microtasks p ++ [r]) p
  | Rejected _ => p
  | OfFade id =>
      match fades p !! id with
      | Some f =>
          if resolved f then with_microtasks (microtasks p ++ [r]) p
          else
            with_fades
              (<[id := mkFade (originalVolume f) (delta f) (ticks f) (tick f) (intervalMs f)
                         (running f) (resolved f) (waiting f ++ [r])]> (fades p)) p
      | None => p
      end
  end.

(** [set src(url)] *)
Definition set_src (url : string) (p : Player) : Player :=
  let fadeMs := 1500%R in
  let '(pr, p) := setVolume 0 fadeMs default_intervalMs p in
  then_ pr (SwapSource url) p.

(** ** ListenerRegistry *)

(** [arr[i] = x]: an index past the end extends the array with empty slots. *)
Definition array_set (i : nat) (x : slot) (arr : list slot) : list slot :=
  if decide (i < length arr) then <[i := x]> arr
  else arr ++ replicate (i - length arr) Hole ++ [x].

(** The value of an element as an event callback: a handler, or nothing
    for [null] and [undefined]. *)
Definition callback_of (s : option slot) : option handler :=
  match s with
  | Some (Handler h) => Some h
  | _ => None
  end.

(** [on(event, handler)] *)
Definition on (event : string) (h : handler) (p : Player) : nat * Player :=
  let eventHandlers := default [] (_eventHandlers p !! event) in
  let eventHandlers := eventHandlers ++ [Handler h] in
  let p := match callback_of (eventHandlers !! (length eventHandlers - 1)) with
           | Some f => addEventListener event f p
           | None => p
           end in
  let p := with_eventHandlers (<[event := eventHandlers]> (_eventHandlers p)) p in
  (length eventHandlers - 1, p).

(** [eventHandlers.forEach((handler, index) => ...)] of [off]: [count]
    indices from [index] on, skipping empty slots. *)
Fixpoint off_each (event : string) (count index : nat) (eventHandlers : list slot)
    (p : Player) : list slot * Player :=
  match count with
  | O => (eventHandlers, p)
  | S count' =>
      match eventHandlers !! index with
      | None | Some Hole => off_each event count' (S index) eventHandlers p
      | Some s =>
          off_each event count' (S index) (array_set index Null eventHandlers)
            (removeEventListener event (callback_of (Some s)) p)
      end
  end.

(** [off(event, handlerIndex)]; [handlerIndex] is [None] when omitted. *)
Definition off (event : string) (handlerIndex : option nat) (p : Player) : Player :=
  match _eventHandlers p !! event with
  | None => p
  | Some eventHandlers =>
      if decide (length eventHandlers = 0) then p
      else
        let '(eventHandlers, p) :=
          match handlerIndex with
          | Some i =>
              (array_set i Null eventHandlers,
               removeEventListener event (callback_of (eventHandlers !! i)) p)
          | None => off_each event (length eventHandlers) 0 eventHandlers p
          end in
        with_eventHandlers (<[event := eventHandlers]> (_eventHandlers p)) p
  end.

(** A sequence of registry operations. *)
Inductive registry_op : Type :=
| On (event : string) (h : handler)
| Off (event : string) (handlerIndex : option nat).

Definition apply_op (o : registry_op) (p : Player) : Player :=
  match o with
  | On event h => (on event h p).2
  | Off event i => off event i p
  end.

Definition apply_ops (os : list registry_op) (p : Player) : Player :=
  foldl (λ q o, apply_op o q) p os.

Definition sequence_of (event : string) (p : Player) : list slot :=
  default [] (_eventHandlers p !! event).

Definition live (s : slot) : Prop := ∃ h, s = Handler h.

Definition tombstone (s : slot) : Prop := ¬ live s.

(** What [off] without an index leaves of an element: [null], or the empty
    slot [forEach] never visits. *)
Definition nulled (s : slot) : slot :=
  match s with
  | Hole => Hole
  | _ => Null
  end.

(** The [removeEventListener] calls [forEach] makes over the elements [l]. *)
Definition removals (event : string) (l : list slot) : list call :=
  flat_map (λ s, match s with
                 | Hole => []
                 | _ => [RemoveEventListener event (callback_of (Some s))]
                 end) l.

Definition live_handlers (l : list slot) : list handler :=
  omap (λ s, callback_of (Some s)) l.

Definition removed_handlers (cs : list call) : list handler :=
  omap (λ c, match c with
             | RemoveEventListener _ (Some h) => Some h
             | _ => None
             end) cs.

Definition op_event (o : registry_op) : string :=
  match o with
  | On event _ => event
  | Off event _ => event
  end.

(** How the sequence of one event may change: it never gets shorter, and
    an element either stays as it is or becomes [null]. *)
Definition evolves (l l' : list slot) : Prop :=
  length l ≤ length l' ∧
  ∀ i s, l !! i = Some s → l' !! i = Some s ∨ l' !! i = Some Null.

(** ** The fade as the specification words it *)

(** [startVolume + delta * (0.5 - cos(pi * t / totalTicks) / 2)] with
    [delta = targetVolume - startVolume]. *)
Definition eased (startVolume targetVolume : R) (t N : Z) : R :=
  (startVolume + (targetVolume - startVolume) * (0.5 - cos (PI * IZR t / IZR N) / 2))%R.

(** The volume writes of ticks [1] to [k] of a fade of [N] ticks. *)
Definition fade_writes (startVolume targetVolume : R) (N : Z) (k : nat) : list call :=
  (λ t, SetVolume (Num (eased startVolume targetVolume (Z.of_nat t) N))) <$> seq 1 k.

Definition strictly_between (a b x : R) : Prop := (a < x < b ∨ b < x < a)%R.

Definition between (a b x : R) : Prop := (a <= x <= b ∨ b <= x <= a)%R.

(** The fade a call of [setVolume] starts. *)
Definition new_fade (startVolume targetVolume : R) (N : Z) (ms : R)
    (ws : list reaction) : Fade :=
  mkFade (Num startVolume) (Num (targetVolume - startVolume)) N 1 ms true false ws.



(** A fade whose counter is already past its number of ticks, in a player
    between jobs: [++tick === ticks + 1] can no longer hold. *)
Definition overshot (timer : nat) (q : Player) : Prop :=
  ∃ f, fades q !! timer = Some f ∧ running f = true ∧ resolved f = false ∧
       (ticks f < tick f)%Z ∧ microtasks q = [].

(** The statement [player.src = url] as one job: the setter, then the
    microtasks it left. *)
Definition assign_src (url : string) (p : Player) : Player := drain (set_src url p).

(** The player after the source swap of [set src]: the new source, and
    [play()] when playback was active. *)
Definition swapped (url : string) (q : Player) : Player :=
  if isPlaying q then play (write_src url q) else write_src url q.

(** ** Further vocabulary for the registry *)

(** An operation that does not remove the entry [k] of [event]: any [on],
    an [off] of another event, or an [off] of [event] with another index. *)
Definition spares (event : string) (k : nat) (o : registry_op) : Prop :=
  match o with
  | On _ _ => True
  | Off e None => e ≠ event
  | Off e (Some i) => e ≠ event ∨ i ≠ k
  end.

(** Every listener the element holds is still a handler in the sequence of
    its event, so some handle removes it. *)
Definition attached_are_live (p : Player) : Prop :=
  ∀ event h, (event, h) ∈ listeners (_audio p) → Handler h ∈ sequence_of event p.

(** ** Further vocabulary for the fader *)

(** A call that writes the volume. *)
Definition volume_write (c : call) : Prop := ∃ v, c = SetVolume v.

(** The volume the timer callback of [f] writes at its next expiry. *)
Definition tick_write (f : Fade) : jsnum :=
  js_add (originalVolume f) (js_mul (swing (tick f) (ticks f)) (delta f)).

(** The closure and promise of [f] after that expiry. *)
Definition next_fade (f : Fade) : Fade :=
  if decide (tick f + 1 = ticks f + 1)%Z
  then finished (at_tick (tick f + 1) f)
  else at_tick (tick f + 1) f.

(** ** Playback controls *)

(** [pause = () => this._audio.pause()] *)
Definition pause (p : Player) : Player :=
  let a := _audio p in
  with_audio (mkAudio (volume a) true (audio_src a) (listeners a)) p.

(** The player with the two fields of the element that only the playback
    controls use: the position [currentTime], as it is at the instant of the
    call, and the [loop] flag ([get loop] is the projection). *)
Record Controls : Type := mkControls {
  player : Player;
  currentTime : R;
  loop : bool
}.

(** [stop()] *)
Definition stop (c : Controls) : Controls :=
  mkControls (pause (player c)) 0 (loop c).

(** [toggle()] *)
Definition toggle (c : Controls) : Controls :=
  if paused (_audio (player c))
  then mkControls (play (player c)) (currentTime c) (loop c)
  else stop c.

(** [set loop(willLoop)] *)
Definition set_loop (willLoop : bool) (c : Controls) : Controls :=
  mkControls (player c) (currentTime c) willLoop.

(** [get src()] *)
Definition get_src (p : Player) : string := audio_src (_audio p).

(** ** What can happen during the fade-out of [set src] *)

(** Between the assignment to [src] and the end of its fade-out: an expiry
    of the timer of the fade, or a call of [play] or of [pause]. *)
Inductive interlude : Type :=
| Expiry
| CallPlay
| CallPause.

#[global] Instance interlude_eq_dec : EqDecision interlude.
Proof. solve_decision. Defined.

Definition interlude_step (timer : nat) (s : interlude) (q : Player) : Player :=
  match s with
  | Expiry => fire timer q
  | CallPlay => play q
  | CallPause => pause q
  end.

Definition run_interludes (timer : nat) (ss : list interlude) (q : Player) : Player :=
  foldl (λ q s, interlude_step timer s q) q ss.

Definition expiries (ss : list interlude) : nat :=
  length (filter (λ s, s = Expiry) ss).

Definition not_play (c : call) : bool :=
  match c with
  | Play => false
  | _ => true
  end.

(** ** The fader over IEEE doubles

    [setVolume] and its timer callback once more, with JavaScript numbers as
    binary64 floats and their rounded operations, for what depends on
    rounding.  [Math.cos] is given by the platform and is a parameter [cos].
    The state is the part of the player the fader uses: the volume of the
    element, the timers with their promises, and the volumes written so far.
    The counter [tick] is an integer; below [2^53] its value, [++tick] and
    the comparison with [ticks + 1] are exact in doubles. *)
Module Binary64.

(** [Math.PI] *)
Definition PI : float := 0x1.921fb54442d18p+1%float.

(** A counter as a double. *)
Definition Z2F (z : Z) : float := of_uint63 (Uint63.of_Z z).

(** The integer a double is, when it is one. *)
Definition F2Z (x : float) : option Z :=
  match Prim2SF x with
  | S754_zero _ => Some 0%Z
  | S754_finite s m e =>
      let magnitude :=
        if (0 <=? e)%Z then Some (Z.shiftl (Z.pos m) e)
        else if (Z.shiftl (Z.shiftr (Z.pos m) (- e)) (- e) =? Z.pos m)%Z
             then Some (Z.shiftr (Z.pos m) (- e))
             else None in
      (λ n, if s then (- n)%Z else n) <$> magnitude
  | _ => None
  end.

(** [Math.floor]: a double with exponent at least 0 is an integer; otherwise
    the mantissa is shifted, one more for a negative number that is not an
    integer; zeros, infinities and NaN are returned as they are. *)
Definition floor (x : float) : float :=
  match Prim2SF x with
  | S754_finite s m e =>
      if (0 <=? e)%Z then x
      else
        let q := Z.shiftr (Z.pos m) (- e) in
        let exact := (Z.shiftl q (- e) =? Z.pos m)%Z in
        if s then (- Z2F (if exact then q else q + 1))%float else Z2F q
  | _ => x
  end.

(** [!x] on a number: true for [0], [-0] and NaN. *)
Definition js_not (x : float) : bool := is_zero x || is_nan x.

Record Fade : Type := mkFade {
  originalVolume : float;
  delta : float;
  ticks : float;
  tick : Z;
  intervalMs : float;
  running : bool;
  resolved : bool
}.

Record Player : Type := mkPlayer {
  volume : float;
  fades : list Fade;
  writes : list float
}.

(** [new Audio(url)] has volume 1. *)
Definition new_player : Player := mkPlayer 1 [] [].

Definition write_volume (v : float) (p : Player) : Player :=
  mkPlayer v (fades p) (writes p ++ [v]).

Definition with_fades (fs : list Fade) (p : Player) : Player :=
  mkPlayer (volume p) fs (writes p).

(** [async setVolume(newVolume, fadeMs = 1500, intervalMs = 13)] *)
Definition setVolume (newVolume fadeMs intervalMs : float) (p : Player) : promise * Player :=
  if (newVolume <? 0)%float || (100 <? newVolume)%float
  then (Rejected out_of_range, p)
  else
    let newVolume := (newVolume / 100)%float in
    let originalVolume := volume p in
    let delta := (newVolume - originalVolume)%float in
    if js_not delta || js_not fadeMs || js_not intervalMs
    then (Fulfilled, write_volume newVolume p)
    else
      let ticks := floor (fadeMs / intervalMs) in
      let timer := length (fades p) in
      (OfFade timer,
       with_fades (fades p ++ [mkFade originalVolume delta ticks 1 intervalMs true false]) p).

(** [originalVolume + ((0.5 - cosine / 2) * delta)], [cosine] being the value
    of [Math.cos((tick / ticks) * Math.PI)]. *)
Definition eased_volume (originalVolume delta cosine : float) : float :=
  (originalVolume + ((0.5 - cosine / 2) * delta))%float.

Definition tick_volume (cos : float → float) (originalVolume delta ticks : float)
    (tick : Z) : float :=
  eased_volume originalVolume delta (cos ((Z2F tick / ticks) * PI)%float).

Definition at_tick (t : Z) (f : Fade) : Fade :=
  mkFade (originalVolume f) (delta f) (ticks f) t (intervalMs f) (running f) (resolved f).

(** [clearInterval(timer); resolve()] *)
Definition finished (f : Fade) : Fade :=
  mkFade (originalVolume f) (delta f) (ticks f) (tick f) (intervalMs f) false true.

(** [tick === ticks + 1], after the increment. *)
Definition completed (f : Fade) : bool :=
  match F2Z (ticks f) with
  | Some n => (tick f =? n + 1)%Z
  | None => false
  end.

(** The closure and promise of [f] after one expiry of its timer. *)
Definition next_fade (f : Fade) : Fade :=
  let f := at_tick (tick f + 1) f in
  if completed f then finished f else f.

(** The function given to [setInterval], for the fade stored at [timer]. *)
Definition timer_callback (cos : float → float) (timer : nat) (f : Fade) (p : Player) : Player :=
  let p := write_volume
             (tick_volume cos (originalVolume f) (delta f) (ticks f) (tick f)) p in
  with_fades (<[timer := next_fade f]> (fades p)) p.

Definition fire (cos : float → float) (timer : nat) (p : Player) : Player :=
  match fades p !! timer with
  | Some f => if running f then timer_callback cos timer f p else p
  | None => p
  end.

Fixpoint fire_n (cos : float → float) (k : nat) (timer : nat) (p : Player) : Player :=
  match k with
  | O => p
  | S k' => fire cos timer (fire_n cos k' timer p)
  end.

Definition state_of (pr : promise) (p : Player) : settlement :=
  match pr with
  | Fulfilled => IsFulfilled
  | Rejected e => IsRejected e
  | OfFade id =>
      match fades p !! id with
      | Some f => if resolved f then IsFulfilled else IsPending
      | None => IsPending
      end
  end.

(** The volumes that ticks [1] to [k] of a fade write. *)
Definition fade_writes (cos : float → float) (originalVolume delta ticks : float)
    (k : nat) : list float :=
  (λ t, tick_volume cos originalVolume delta ticks (Z.of_nat t)) <$> seq 1 k.

(** Two interval timers set in the same job with the same interval expire
    in the order they were set: one round is an expiry of each. *)
Definition round (cos : float → float) (timer1 timer2 : nat) (q : Player) : Player :=
  fire cos timer2 (fire cos timer1 q).

Fixpoint rounds (cos : float → float) (n : nat) (timer1 timer2 : nat) (q : Player) : Player :=
  match n with
  | O => q
  | S n' => round cos timer1 timer2 (rounds cos n' timer1 timer2 q)
  end.

(** The writes of [j] rounds of two fades from the same volume. *)
Definition paired_writes (cos : float → float) (originalVolume delta1 delta2 ticks : float)
    (j : nat) : list float :=
  flat_map (λ t, [tick_volume cos originalVolume delta1 ticks (Z.of_nat t);
                  tick_volume cos originalVolume delta2 ticks (Z.of_nat t)])
    (seq 1 j).

End Binary64.

(** * Properties of the listener registry *)

Section Registry.
Implicit Types (p : Player) (event : string) (h : handler)
  (eh : list slot) (i k : nat).

Lemma array_set_in_range i x eh :
  i < length eh → array_set i x eh = <[i := x]> eh.
Proof. intros Hi. unfold array_set. by rewrite decide_True. Qed.

Lemma array_set_past_end i x eh :
  length eh ≤ i → array_set i x eh = eh ++ replicate (i - length eh) Hole ++ [x].
Proof. intros Hi. unfold array_set. rewrite decide_False; [done | lia]. Qed.

Lemma array_set_length i x eh :
  length (array_set i x eh) = length eh `max` S i.
Proof.
  unfold array_set. case_decide.
  - rewrite length_insert. lia.
  - rewrite !length_app, length_replicate. simpl. lia.
Qed.

Lemma array_set_lookup_ne i j x eh :
  j < length eh → i ≠ j → array_set i x eh !! j = eh !! j.
Proof.
  intros Hj Hne. unfold array_set. case_decide.
  - by rewrite list_lookup_insert_ne.
  - by rewrite lookup_app_l.
Qed.

Lemma array_set_evolves i eh : evolves eh (array_set i Null eh).
Proof.
  split; [rewrite array_set_length; lia |].
  intros j s Hj. pose proof (lookup_lt_Some _ _ _ Hj) as Hlt.
  destruct (decide (i = j)) as [-> | Hne].
  - right. rewrite array_set_in_range by done. by apply list_lookup_insert_eq.
  - left. by rewrite array_set_lookup_ne.
Qed.

Lemma evolves_refl eh : evolves eh eh.
Proof. split; [done | auto]. Qed.

Lemma evolves_trans eh1 eh2 eh3 : evolves eh1 eh2 → evolves eh2 eh3 → evolves eh1 eh3.
Proof.
  intros [Hl1 H1] [Hl2 H2]. split; [lia |].
  intros i s Hi. destruct (H1 _ _ Hi) as [Hs | Hn].
  - auto.
  - right. destruct (H2 _ _ Hn); done.
Qed.

Lemma evolves_snoc eh s : evolves eh (eh ++ [s]).
Proof.
  split; [rewrite length_app; lia |].
  intros i t Hi. left. by apply lookup_app_l_Some.
Qed.

Lemma evolves_nulled eh : evolves eh (nulled <$> eh).
Proof.
  split; [by rewrite length_fmap |].
  intros i s Hi. rewrite list_lookup_fmap, Hi. destruct s; simpl; auto.
Qed.

Lemma evolves_tombstone eh eh' i s :
  evolves eh eh' → eh !! i = Some s → tombstone s →
  ∃ s', eh' !! i = Some s' ∧ tombstone s'.
Proof.
  intros [_ H] Hi Hs. destruct (H _ _ Hi) as [Hk | Hk]; eexists; split; try done.
  intros [g Hg]. discriminate.
Qed.

(** *** [forEach] of [off] *)

Lemma off_each_eventHandlers event count index eh p :
  _eventHandlers (off_each event count index eh p).2 = _eventHandlers p.
Proof.
  revert index eh p. induction count as [| count IH]; intros index eh p; simpl; [done |].
  destruct (eh !! index) as [[g | |] |]; rewrite IH; done.
Qed.

Lemma off_each_array event count index eh p i :
  index + count ≤ length eh →
  (off_each event count index eh p).1 !! i =
    if decide (index ≤ i < index + count) then nulled <$> eh !! i else eh !! i.
Proof.
  revert index eh p. induction count as [| count IH]; intros index eh p Hlen; simpl.
  { rewrite decide_False; [done | lia]. }
  destruct (lookup_lt_is_Some_2 eh index) as [s Hs]; [lia |].
  rewrite Hs.
  assert (Hnot_hole : s ≠ Hole →
    (off_each event count (S index) (array_set index Null eh)
       (removeEventListener event (callback_of (Some s)) p)).1 !! i =
    if decide (index ≤ i < index + S count) then nulled <$> eh !! i else eh !! i).
  { intros Hne. rewrite IH by (rewrite array_set_length; lia).
    rewrite array_set_in_range by lia.
    destruct (decide (i = index)) as [-> | Hi].
    - rewrite decide_False by lia. rewrite decide_True by lia.
      rewrite list_lookup_insert_eq by lia. rewrite Hs. by destruct s.
    - rewrite list_lookup_insert_ne by done.
      repeat case_decide; done || lia. }
  destruct s as [g | |].
  - by apply Hnot_hole.
  - by apply Hnot_hole.
  - rewrite IH by lia. destruct (decide (i = index)) as [-> | Hi].
    + rewrite decide_False by lia. rewrite decide_True by lia. by rewrite Hs.
    + repeat case_decide; done || lia.
Qed.

Lemma off_each_all event eh p :
  (off_each event (length eh) 0 eh p).1 = nulled <$> eh.
Proof.
  apply list_eq. intros i. rewrite off_each_array by lia.
  rewrite list_lookup_fmap. case_decide as Hi; [done |].
  rewrite (lookup_ge_None_2 eh i) by lia. done.
Qed.

Lemma off_each_calls event count index eh p :
  index + count ≤ length eh →
  calls (off_each event count index eh p).2 =
    calls p ++ removals event (take count (drop index eh)).
Proof.
  revert index eh p. induction count as [| count IH]; intros index eh p Hlen; simpl.
  { by rewrite app_nil_r. }
  destruct (lookup_lt_is_Some_2 eh index) as [s Hs]; [lia |].
  rewrite Hs, (drop_S _ _ _ Hs). simpl.
  assert (Hnot_hole : s ≠ Hole →
    calls (off_each event count (S index) (array_set index Null eh)
       (removeEventListener event (callback_of (Some s)) p)).2 =
    calls p ++ [RemoveEventListener event (callback_of (Some s))] ++
      removals event (take count (drop (S index) eh))).
  { intros Hne. rewrite IH by (rewrite array_set_length; lia).
    rewrite array_set_in_range by lia. rewrite drop_insert_lt by lia.
    simpl. by rewrite <- app_assoc. }
  destruct s as [g | |].
  - by apply Hnot_hole.
  - by apply Hnot_hole.
  - by rewrite IH by lia.
Qed.

Lemma off_each_listeners event count index eh p x :
  index + count ≤ length eh →
  x ∈ listeners (_audio (off_each event count index eh p).2) →
  x ∈ listeners (_audio p) ∧
  ∀ i h, index ≤ i < index + count → eh !! i = Some (Handler h) → x ≠ (event, h).
Proof.
  revert index eh p. induction count as [| count IH]; intros index eh p Hlen; simpl.
  { intros Hx. split; [done | intros; lia]. }
  destruct (lookup_lt_is_Some_2 eh index) as [s Hs]; [lia |].
  rewrite Hs.
  assert (Hnot_hole : s ≠ Hole →
    x ∈ listeners (_audio (off_each event count (S index) (array_set index Null eh)
       (removeEventListener event (callback_of (Some s)) p)).2) →
    x ∈ listeners (_audio p) ∧
    ∀ i h, index ≤ i < index + S count → eh !! i = Some (Handler h) → x ≠ (event, h)).
  { intros Hne Hx. apply IH in Hx as [Hx Hrest]; [| rewrite array_set_length; lia].
    assert (x ∈ listeners (_audio p) ∧
            ∀ h, s = Handler h → x ≠ (event, h)) as [Hin Hhere].
    { destruct s as [g | |]; simpl in Hx.
      - apply list_elem_of_filter in Hx as [Hx1 Hx2]. split; [done |].
        intros h [= ->]. done.
      - split; [done | discriminate].
      - done. }
    split; [done |]. intros i h Hi Hh.
    destruct (decide (i = index)) as [-> | Hidx].
    - apply Hhere. congruence.
    - apply (Hrest i); [lia |].
      rewrite array_set_in_range by lia. by rewrite list_lookup_insert_ne. }
  destruct s as [g | |].
  - by apply Hnot_hole.
  - by apply Hnot_hole.
  - intros Hx. apply IH in Hx as [Hx Hrest]; [| lia]. split; [done |].
    intros i h Hi Hh. destruct (decide (i = index)) as [-> | Hidx]; [congruence |].
    apply (Hrest i); [lia | done].
Qed.

(** *** [on] and [off] on the sequence of an event *)

Lemma on_eq event h p :
  on event h p =
    (length (sequence_of event p),
     with_eventHandlers (<[event := sequence_of event p ++ [Handler h]]> (_eventHandlers p))
       (addEventListener event h p)).
Proof.
  unfold on, sequence_of.
  set (eh := default [] (_eventHandlers p !! event)).
  rewrite length_app. simpl.
  replace (length eh + 1 - 1) with (length eh) by lia.
  rewrite list_lookup_middle by done. done.
Qed.

Lemma on_sequence event h p :
  sequence_of event (on event h p).2 = sequence_of event p ++ [Handler h].
Proof. rewrite on_eq. unfold sequence_of at 1. simpl. by rewrite lookup_insert_eq. Qed.

Lemma on_sequence_ne event event' h p :
  event ≠ event' → sequence_of event' (on event h p).2 = sequence_of event' p.
Proof.
  intros Hne. rewrite on_eq. unfold sequence_of at 1. simpl.
  by rewrite lookup_insert_ne.
Qed.

Lemma off_missing event handlerIndex p :
  sequence_of event p = [] → off event handlerIndex p = p.
Proof.
  unfold sequence_of, off. intros Hseq.
  destruct (_eventHandlers p !! event) as [eh |]; [| done].
  simpl in Hseq. subst eh. done.
Qed.

Lemma off_eventHandlers event handlerIndex eh p :
  _eventHandlers p !! event = Some eh → eh ≠ [] →
  _eventHandlers (off event handlerIndex p) =
    <[event := match handlerIndex with
               | Some i => array_set i Null eh
               | None => nulled <$> eh
               end]> (_eventHandlers p).
Proof.
  intros Hev Hne. unfold off. rewrite Hev.
  rewrite decide_False by (by destruct eh).
  destruct handlerIndex as [i |]; simpl; [done |].
  destruct (off_each event (length eh) 0 eh p) as [eh' p'] eqn:Heach. simpl.
  pose proof (off_each_all event eh p) as Hall.
  pose proof (off_each_eventHandlers event (length eh) 0 eh p) as Hmap.
  rewrite Heach in Hall, Hmap. simpl in Hall, Hmap. by rewrite Hall, Hmap.
Qed.

Lemma off_sequence_ne event event' handlerIndex p :
  event ≠ event' → sequence_of event' (off event handlerIndex p) = sequence_of event' p.
Proof.
  intros Hne. destruct (_eventHandlers p !! event) as [eh |] eqn:Hev.
  - destruct (decide (eh = [])) as [-> | Hnil].
    + rewrite off_missing; [done |]. unfold sequence_of. by rewrite Hev.
    + unfold sequence_of. rewrite (off_eventHandlers _ _ _ _ Hev Hnil).
      by rewrite lookup_insert_ne.
  - rewrite off_missing; [done |]. unfold sequence_of. by rewrite Hev.
Qed.

Lemma off_evolves event handlerIndex p :
  evolves (sequence_of event p) (sequence_of event (off event handlerIndex p)).
Proof.
  destruct (_eventHandlers p !! event) as [eh |] eqn:Hev.
  - destruct (decide (eh = [])) as [-> | Hnil].
    + rewrite off_missing; [apply evolves_refl |]. unfold sequence_of. by rewrite Hev.
    + unfold sequence_of. rewrite (off_eventHandlers _ _ _ _ Hev Hnil).
      rewrite lookup_insert_eq, Hev. simpl.
      destruct handlerIndex; [apply array_set_evolves | apply evolves_nulled].
  - rewrite off_missing; [apply evolves_refl |]. unfold sequence_of. by rewrite Hev.
Qed.

Lemma apply_op_evolves o event p :
  evolves (sequence_of event p) (sequence_of event (apply_op o p)).
Proof.
  destruct o as [e h | e i]; unfold apply_op.
  - destruct (decide (e = event)) as [-> | Hne].
    + rewrite on_sequence. apply evolves_snoc.
    + rewrite on_sequence_ne by done. apply evolves_refl.
  - destruct (decide (e = event)) as [-> | Hne].
    + apply off_evolves.
    + rewrite off_sequence_ne by done. apply evolves_refl.
Qed.

Lemma apply_ops_evolves os event p :
  evolves (sequence_of event p) (sequence_of event (apply_ops os p)).
Proof.
  revert p. induction os as [| o os IH]; intros p.
  - apply evolves_refl.
  - eapply evolves_trans; [apply (apply_op_evolves o) | apply IH].
Qed.

Lemma apply_ops_other_events os event p :
  Forall (λ o, op_event o ≠ event) os →
  sequence_of event (apply_ops os p) = sequence_of event p.
Proof.
  intros Hos. revert p. induction Hos as [| o os Ho _ IH]; intros p; [done |].
  change (apply_ops (o :: os) p) with (apply_ops os (apply_op o p)).
  rewrite IH. destruct o as [e h | e i]; unfold apply_op, op_event in *.
  - by apply on_sequence_ne.
  - by apply off_sequence_ne.
Qed.

End Registry.

(** ** The claims about the registry *)

(** C5. [on] appends the handler to the sequence of its event, creating the
    sequence when there is none, and returns the length the sequence had
    before the append.  Starting from an event without entries, the first
    registration returns 0 and the second returns 1, whatever is done to other
    event names in between. *)
Theorem on_returns_previous_length (event : string) (h : handler) (p : Player) :
  (on event h p).1 = length (sequence_of event p) ∧
  _eventHandlers (on event h p).2 !! event = Some (sequence_of event p ++ [Handler h]) ∧
  (∀ (os : list registry_op) (h2 : handler),
      sequence_of event p = [] →
      Forall (λ o, op_event o ≠ event) os →
      (on event h p).1 = 0 ∧
      (on event h2 (apply_ops os (on event h p).2)).1 = 1).
Proof.
  split; [by rewrite on_eq |]. split.
  { rewrite on_eq. simpl. by rewrite lookup_insert_eq. }
  intros os h2 Hnil Hos. split.
  - rewrite on_eq. simpl. by rewrite Hnil.
  - rewrite (on_eq event h2). cbn [fst].
    rewrite apply_ops_other_events by done.
    rewrite on_sequence, Hnil. done.
Qed.

Lemma on_returns_previous_length_witness :
  (on "ended" (Fn 0) (constructor "a.mp3")).1 = 0 ∧
  (on "ended" (Fn 2)
     (apply_ops [On "play" (Fn 1); Off "pause" None]
        (on "ended" (Fn 0) (constructor "a.mp3")).2)).1 = 1.
Proof.
  destruct (on_returns_previous_length "ended" (Fn 0) (constructor "a.mp3"))
    as (_ & _ & H).
  apply (H [On "play" (Fn 1); Off "pause" None] (Fn 2)).
  - reflexivity.
  - repeat constructor; discriminate.
Defined.

(** [off] on an event without a sequence, or with an empty one, changes
    nothing at all, with or without an index. *)
Lemma off_no_sequence (event : string) (handlerIndex : option nat) (p : Player) :
  _eventHandlers p !! event = None ∨ _eventHandlers p !! event = Some [] →
  off event handlerIndex p = p.
Proof.
  intros H. apply off_missing. unfold sequence_of. by destruct H as [-> | ->].
Qed.

(** [off] with the index of an element that is already [null] leaves the
    registry and the listeners of the element as they were: the one call it
    makes passes [null], which removes nothing. *)
Lemma off_tombstoned_handle (event : string) (i : nat) (eh : list slot) (p : Player) :
  _eventHandlers p !! event = Some eh → eh !! i = Some Null →
  _eventHandlers (off event (Some i) p) = _eventHandlers p ∧
  _audio (off event (Some i) p) = _audio p ∧
  calls (off event (Some i) p) = calls p ++ [RemoveEventListener event None].
Proof.
  intros Hev Hi.
  assert (eh ≠ []) as Hnil by (intros ->; done).
  split.
  { rewrite (off_eventHandlers _ _ _ _ Hev Hnil).
    rewrite array_set_in_range by (by eapply lookup_lt_Some).
    rewrite list_insert_id by done. by apply insert_id. }
  unfold off. rewrite Hev, decide_False by (by destruct eh).
  simpl. rewrite Hi. simpl. by destruct p as [[] ? ? ? ?].
Qed.

(** [off] with an index past the end of a non-empty sequence writes [null]
    there: the array grows to [i + 1] elements. *)
Lemma off_past_end (event : string) (i : nat) (eh : list slot) (p : Player) :
  _eventHandlers p !! event = Some eh → eh ≠ [] → length eh ≤ i →
  sequence_of event (off event (Some i) p) =
    eh ++ replicate (i - length eh) Hole ++ [Null].
Proof.
  intros Hev Hnil Hi. unfold sequence_of.
  rewrite (off_eventHandlers _ _ _ _ Hev Hnil), lookup_insert_eq. simpl.
  by apply array_set_past_end.
Qed.

(** C6, at [on('ended', f0); off('ended', 3)]: the index 3 is out of range,
    yet the sequence of ['ended'] changes from one element to four, and the
    next registration gets the handle 4 where it would have got 1. *)
Theorem off_out_of_range_changes_registry :
  sequence_of "ended" (on "ended" (Fn 0) (constructor "a.mp3")).2 = [Handler (Fn 0)] ∧
  sequence_of "ended" (off "ended" (Some 3) (on "ended" (Fn 0) (constructor "a.mp3")).2)
    = [Handler (Fn 0); Hole; Hole; Null] ∧
  (on "ended" (Fn 1) (on "ended" (Fn 0) (constructor "a.mp3")).2).1 = 1 ∧
  (on "ended" (Fn 1)
     (off "ended" (Some 3) (on "ended" (Fn 0) (constructor "a.mp3")).2)).1 = 4.
Proof. repeat split; reflexivity. Qed.

(** C7. [off] without an index, on an event whose sequence is not empty:
    the sequence keeps its length and every index; every element that held a
    handler or [null] is [null] afterwards (an empty slot stays empty), so no
    element is live; [removeEventListener] is called once for each element in
    sequence order, the calls that carry a handler being exactly the live
    handlers in order; and none of them is still a listener of the event. *)
Theorem off_all_tombstones (event : string) (eh : list slot) (p : Player) :
  _eventHandlers p !! event = Some eh → eh ≠ [] →
  _eventHandlers (off event None p) !! event = Some (nulled <$> eh) ∧
  length (sequence_of event (off event None p)) = length eh ∧
  Forall tombstone (sequence_of event (off event None p)) ∧
  (∀ i h, eh !! i = Some (Handler h) →
          sequence_of event (off event None p) !! i = Some Null) ∧
  (Hole ∉ eh → sequence_of event (off event None p) = replicate (length eh) Null) ∧
  calls (off event None p) = calls p ++ removals event eh ∧
  removed_handlers (removals event eh) = live_handlers eh ∧
  (∀ h, Handler h ∈ eh → (event, h) ∉ listeners (_audio (off event None p))).
Proof.
  intros Hev Hnil.
  assert (Hseq : sequence_of event (off event None p) = nulled <$> eh).
  { unfold sequence_of.
    by rewrite (off_eventHandlers _ _ _ _ Hev Hnil), lookup_insert_eq. }
  rewrite Hseq. repeat split.
  - by rewrite (off_eventHandlers _ _ _ _ Hev Hnil), lookup_insert_eq.
  - by rewrite length_fmap.
  - apply Forall_fmap, Forall_forall. intros s _ [g Hg]. by destruct s.
  - intros i h Hi. by rewrite list_lookup_fmap, Hi.
  - intros Hholes. apply list_eq. intros i.
    rewrite list_lookup_fmap. destruct (eh !! i) as [s |] eqn:Hi; simpl.
    + rewrite lookup_replicate_2 by (by eapply lookup_lt_Some).
      destruct s; try done. exfalso. apply Hholes. by eapply list_elem_of_lookup_2.
    + symmetry. apply lookup_ge_None_2. rewrite length_replicate.
      by apply lookup_ge_None_1.
  - unfold off. rewrite Hev, decide_False by (by destruct eh).
    pose proof (off_each_calls event (length eh) 0 eh p) as Hcalls.
    destruct (off_each event (length eh) 0 eh p) as [eh' p'] eqn:Heach.
    simpl in *. rewrite Hcalls by lia. by rewrite drop_0, firstn_all.
  - clear. induction eh as [| s eh IH]; [done |].
    destruct s as [g | |]; simpl; unfold removed_handlers, live_handlers in *;
      simpl; by rewrite ?IH.
  - intros h Hh Hin.
    apply list_elem_of_lookup_1 in Hh as [i Hi].
    assert ((event, h) ∈ listeners (_audio (off_each event (length eh) 0 eh p).2)) as Hin'.
    { revert Hin. unfold off. rewrite Hev, decide_False by (by destruct eh).
      by destruct (off_each event (length eh) 0 eh p) as [eh' p']. }
    apply off_each_listeners in Hin' as [_ Hrest]; [| lia].
    apply (Hrest i h); [| done | done].
    apply lookup_lt_Some in Hi. lia.
Qed.

Lemma off_all_tombstones_witness :
  sequence_of "ended"
    (off "ended" None
       (on "ended" (Fn 1) (on "ended" (Fn 0) (constructor "a.mp3")).2).2)
  = replicate 2 Null.
Proof.
  refine (proj1 (proj2 (proj2 (proj2 (proj2
    (off_all_tombstones "ended" [Handler (Fn 0); Handler (Fn 1)]
       (on "ended" (Fn 1) (on "ended" (Fn 0) (constructor "a.mp3")).2).2 _ _))))) _).
  - reflexivity.
  - discriminate.
  - intros H. apply list_elem_of_In in H. simpl in H. intuition discriminate.
Defined.

(** C8. Over every sequence of [on] and [off] calls, from every state: the
    sequence of an event never gets shorter; an element that is not a live
    handler stays so at its index, and a [null] stays [null]; and once [on]
    has returned the handle [k] and, at any later point, [off] has been called
    with it, every [on] for that event after that returns a handle greater
    than [k]. *)
Theorem registry_invariant (os : list registry_op) (event : string) (p : Player) :
  length (sequence_of event p) ≤ length (sequence_of event (apply_ops os p)) ∧
  (∀ i s, sequence_of event p !! i = Some s → tombstone s →
          ∃ s', sequence_of event (apply_ops os p) !! i = Some s' ∧ tombstone s') ∧
  (∀ i, sequence_of event p !! i = Some Null →
        sequence_of event (apply_ops os p) !! i = Some Null) ∧
  (∀ (earlier later : list registry_op) h h2,
      (on event h p).1 <
      (on event h2
         (apply_ops later
            (off event (Some (on event h p).1)
               (apply_ops earlier (on event h p).2)))).1).
Proof.
  pose proof (apply_ops_evolves os event p) as Hev.
  split; [apply Hev |]. split; [| split].
  - intros i s Hi Hs. by eapply evolves_tombstone.
  - intros i Hi. destruct Hev as [_ Hev]. by destruct (Hev _ _ Hi).
  - intros os1 os2 h h2. rewrite (on_eq event h2). cbn [fst].
    set (k := (on event h p).1).
    pose proof (apply_ops_evolves os1 event (on event h p).2) as [H0 _].
    pose proof (off_evolves event (Some k) (apply_ops os1 (on event h p).2)) as [H1 _].
    pose proof (apply_ops_evolves os2 event
                  (off event (Some k) (apply_ops os1 (on event h p).2))) as [H2 _].
    rewrite on_sequence, length_app in H0. cbn [length] in H0.
    assert (k = length (sequence_of event p)) as Hk by (unfold k; by rewrite on_eq).
    lia.
Qed.

Lemma registry_invariant_witness :
  sequence_of "ended"
    (apply_ops [On "ended" (Fn 1); Off "ended" (Some 1); On "play" (Fn 2)]
       (off "ended" (Some 0) (on "ended" (Fn 0) (constructor "a.mp3")).2)) !! 0
  = Some Null.
Proof.
  apply (proj1 (proj2 (proj2
    (registry_invariant [On "ended" (Fn 1); Off "ended" (Some 1); On "play" (Fn 2)]
       "ended" (off "ended" (Some 0) (on "ended" (Fn 0) (constructor "a.mp3")).2))))).
  reflexivity.
Defined.

(** * Properties of the volume fader *)

Section Easing.
Local Open Scope R_scope.
Implicit Types (o target : R) (t N : Z).

Lemma angle_bounds t N :
  (1 ≤ t ≤ N)%Z → 0 < PI * IZR t / IZR N ∧ PI * IZR t / IZR N <= PI.
Proof.
  intros [Ht HN].
  assert (1 <= IZR t) by (apply IZR_le; lia).
  assert (IZR t <= IZR N) by (by apply IZR_le).
  pose proof PI_RGT_0 as Hpi.
  set (x := IZR t / IZR N).
  assert (x * IZR N = IZR t) as Hx by (unfold x; field; lra).
  replace (PI * IZR t / IZR N) with (PI * x) by (unfold x; field; lra).
  assert (0 < x) by (unfold x; apply Rdiv_lt_0_compat; lra).
  assert (x <= 1) by nra.
  split; nra.
Qed.

Lemma angle_lt t t' N :
  (1 ≤ t)%Z → (t < t')%Z → (t' ≤ N)%Z → PI * IZR t / IZR N < PI * IZR t' / IZR N.
Proof.
  intros Ht Hlt HN.
  assert (1 <= IZR t) by (apply IZR_le; lia).
  assert (IZR t < IZR t') by (by apply IZR_lt).
  assert (IZR t' <= IZR N) by (by apply IZR_le).
  pose proof PI_RGT_0 as Hpi.
  unfold Rdiv. apply Rmult_lt_compat_r; [apply Rinv_0_lt_compat; lra | nra].
Qed.

Lemma cos_angle_lt t t' N :
  (1 ≤ t)%Z → (t < t')%Z → (t' ≤ N)%Z →
  cos (PI * IZR t' / IZR N) < cos (PI * IZR t / IZR N).
Proof.
  intros Ht Hlt HN.
  destruct (angle_bounds t N) as [? ?]; [lia |].
  destruct (angle_bounds t' N) as [? ?]; [lia |].
  apply cos_decreasing_1; try lra. by apply angle_lt.
Qed.

Lemma cos_angle_range t N :
  (1 ≤ t)%Z → (t < N)%Z → -1 < cos (PI * IZR t / IZR N) < 1.
Proof.
  intros Ht HN.
  destruct (angle_bounds t N) as [? ?]; [lia |].
  pose proof PI_RGT_0 as Hpi.
  split.
  - rewrite <- cos_PI.
    replace PI with (PI * IZR N / IZR N) at 1
      by (field; apply not_0_IZR; lia).
    apply cos_angle_lt; lia.
  - rewrite <- cos_0. apply cos_decreasing_1; lra.
Qed.

Lemma eased_last o target N : (N ≠ 0)%Z → eased o target N N = target.
Proof.
  intros HN. unfold eased.
  replace (PI * IZR N / IZR N) with PI by (field; by apply not_0_IZR).
  rewrite cos_PI. lra.
Qed.

Lemma eased_strictly_between o target t N :
  o ≠ target → (1 ≤ t)%Z → (t < N)%Z → strictly_between o target (eased o target t N).
Proof.
  intros Hne Ht HN. pose proof (cos_angle_range t N Ht HN) as [Hlo Hhi].
  unfold strictly_between, eased.
  set (c := cos (PI * IZR t / IZR N)) in *.
  destruct (Rtotal_order o target) as [Hlt | [Heq | Hgt]]; [left | done | right]; nra.
Qed.



(** The value the timer callback computes is the eased volume. *)
Lemma tick_value o target t N :
  (N ≠ 0)%Z →
  js_add (Num o) (js_mul (swing t N) (Num (target - o))) = Num (eased o target t N).
Proof.
  intros HN. unfold swing. rewrite decide_False by done. simpl.
  f_equal. unfold eased.
  replace (IZR t / IZR N * PI) with (PI * IZR t / IZR N)
    by (field; by apply not_0_IZR).
  lra.
Qed.
End Easing.

Section FadeRun.
Implicit Types (p q : Player) (f : Fade) (timer k : nat) (o target : R).

Lemma drain_nil q : microtasks q = [] → drain q = q.
Proof. intros H. unfold drain. rewrite H. destruct q; simpl in *; by subst. Qed.


Lemma fire_stopped timer f q :
  fades q !! timer = Some f → running f = false → fire timer q = q.
Proof. unfold fire. by intros -> ->. Qed.

Lemma fire_n_stopped k timer f q :
  fades q !! timer = Some f → running f = false → fire_n k timer q = q.
Proof.
  intros Hf Hr. induction k as [| k IH]; [done |].
  simpl. by rewrite (fire_stopped _ _ _ Hf Hr).
Qed.



Lemma player_ext (a b : Player) :
  _audio a = _audio b → _eventHandlers a = _eventHandlers b → fades a = fades b →
  microtasks a = microtasks b → calls a = calls b → a = b.
Proof. destruct a, b; simpl; intros; by subst. Qed.

Section OneFade.
Variables (timer : nat) (f : Fade) (o target : R) (p : Player).
Hypothesis Hslot : fades p !! timer = Some f.
Hypothesis Horig : originalVolume f = Num o.
Hypothesis Hdelta : delta f = Num (target - o).
Hypothesis Hrun : running f = true.
Hypothesis Htick : tick f = 1%Z.
Hypothesis Hquiet : microtasks p = [].



Lemma fade_writes_S N k :
  fade_writes o target N (S k) =
    fade_writes o target N k ++ [SetVolume (Num (eased o target (Z.of_nat (S k)) N))].
Proof. unfold fade_writes. by rewrite seq_S, fmap_app. Qed.




End OneFade.
End FadeRun.

Section SetVolume.
Implicit Types (p : Player) (v fadeMs ms o : R).

Lemma setVolume_rejects v fadeMs ms p :
  (v < 0 ∨ 100 < v)%R → setVolume v fadeMs ms p = (Rejected out_of_range, p).
Proof.
  intros Hv. unfold setVolume.
  destruct Hv; [rewrite (bool_decide_eq_true_2 (v < 0)%R) by done
               | rewrite (bool_decide_eq_true_2 (100 < v)%R) by done];
    by rewrite ?orb_true_r.
Qed.

Lemma setVolume_in_range v fadeMs ms p :
  (0 <= v <= 100)%R →
  setVolume v fadeMs ms p =
    if js_not (js_sub (Num (v / 100)) (volume (_audio p)))
       || js_not (Num fadeMs) || js_not (Num ms)
    then (Fulfilled, write_volume (Num (v / 100)) p)
    else (OfFade (length (fades p)),
          with_fades
            (fades p ++ [mkFade (volume (_audio p))
                           (js_sub (Num (v / 100)) (volume (_audio p)))
                           (Zfloor (fadeMs / ms)) 1 ms true false []]) p).
Proof.
  intros [Hlo Hhi]. unfold setVolume.
  rewrite (bool_decide_eq_false_2 (v < 0)%R) by lra.
  rewrite (bool_decide_eq_false_2 (100 < v)%R) by lra.
  done.
Qed.

Lemma setVolume_skips v fadeMs ms p :
  (0 <= v <= 100)%R →
  volume (_audio p) = Num (v / 100) ∨ volume (_audio p) = NaN ∨ fadeMs = 0%R ∨ ms = 0%R →
  setVolume v fadeMs ms p = (Fulfilled, write_volume (Num (v / 100)) p).
Proof.
  intros Hv Hskip. rewrite setVolume_in_range by done.
  destruct Hskip as [-> | [-> | [-> | ->]]]; simpl.
  - rewrite bool_decide_eq_true_2; [done | lra].
  - done.
  - rewrite (bool_decide_eq_true_2 (0 = 0)%R) by done. by rewrite orb_true_r.
  - rewrite (bool_decide_eq_true_2 (0 = 0)%R) by done. by rewrite !orb_true_r.
Qed.

Lemma setVolume_fades v fadeMs ms o p :
  (0 <= v <= 100)%R → volume (_audio p) = Num o →
  (v / 100)%R ≠ o → fadeMs ≠ 0%R → ms ≠ 0%R →
  setVolume v fadeMs ms p =
    (OfFade (length (fades p)),
     with_fades (fades p ++ [new_fade o (v / 100) (Zfloor (fadeMs / ms)) ms []]) p).
Proof.
  intros Hv Ho Hne Hf Hms. rewrite setVolume_in_range by done.
  rewrite Ho. simpl.
  rewrite !bool_decide_eq_false_2; [done | done | done | lra].
Qed.

Lemma Zfloor_1500_13 : Zfloor (1500 / 13) = 115%Z.
Proof. apply Zfloor_eq. lra. Qed.

Lemma Zfloor_small fadeMs ms : (0 < fadeMs < ms)%R → Zfloor (fadeMs / ms) = 0%Z.
Proof.
  intros [Hf Hms]. apply Zfloor_eq. simpl.
  assert (0 < fadeMs / ms)%R by (apply Rdiv_lt_0_compat; lra).
  assert (fadeMs / ms < 1)%R.
  { apply Rmult_lt_reg_r with ms; [lra |].
    replace (fadeMs / ms * ms)%R with fadeMs by (field; lra). lra. }
  lra.
Qed.
End SetVolume.

(** ** The claims about the fader *)

(** C2. A volume below 0 or above 100: [setVolume] returns a promise that is
    rejected with the range error (the function is [async], it returns the
    rejection and throws nothing); the player is left exactly as it was, so
    the volume of the element is unchanged and no timer is started. *)
Theorem setVolume_out_of_range (v fadeMs ms : R) (p : Player) :
  (v < 0 ∨ 100 < v)%R →
  setVolume v fadeMs ms p = (Rejected out_of_range, p) ∧
  state_of (setVolume v fadeMs ms p).1 (setVolume v fadeMs ms p).2
    = IsRejected out_of_range ∧
  volume (_audio (setVolume v fadeMs ms p).2) = volume (_audio p) ∧
  fades (setVolume v fadeMs ms p).2 = fades p ∧
  calls (setVolume v fadeMs ms p).2 = calls p.
Proof. intros Hv. by rewrite setVolume_rejects. Qed.

Lemma setVolume_out_of_range_witness :
  setVolume 150 1500 13 (constructor "a.mp3")
    = (Rejected out_of_range, constructor "a.mp3").
Proof.
  apply (setVolume_out_of_range 150 1500 13 (constructor "a.mp3")).
  right. lra.
Defined.

(** C3. A volume in range that is already the current volume, or a zero fade
    duration, or a zero interval: [setVolume] returns a promise that is
    already fulfilled, starts no timer, and writes the volume once, with the
    value [v / 100]. *)
Theorem setVolume_short_circuit (v fadeMs ms : R) (p : Player) :
  (0 <= v <= 100)%R →
  volume (_audio p) = Num (v / 100) ∨ fadeMs = 0%R ∨ ms = 0%R →
  (setVolume v fadeMs ms p).1 = Fulfilled ∧
  state_of Fulfilled (setVolume v fadeMs ms p).2 = IsFulfilled ∧
  fades (setVolume v fadeMs ms p).2 = fades p ∧
  calls (setVolume v fadeMs ms p).2 = calls p ++ [SetVolume (Num (v / 100))] ∧
  volume (_audio (setVolume v fadeMs ms p).2) = Num (v / 100).
Proof.
  intros Hv Hskip. rewrite setVolume_skips; [done | done |].
  destruct Hskip as [? | [? | ?]]; auto.
Qed.

Lemma setVolume_short_circuit_witness :
  calls (setVolume 40 0 13 (constructor "a.mp3")).2 = [Load; SetVolume (Num (40 / 100))].
Proof.
  apply (setVolume_short_circuit 40 0 13 (constructor "a.mp3")).
  - lra.
  - right. left. reflexivity.
Defined.

(** * The fade over IEEE doubles *)

Section Doubles.
Variable cos : float → float.
Implicit Types (p q : Binary64.Player) (f : Binary64.Fade) (timer k : nat).

Lemma double_fire_running timer f q :
  Binary64.fades q !! timer = Some f → Binary64.running f = true →
  Binary64.fire cos timer q =
    Binary64.with_fades (<[timer := Binary64.next_fade f]> (Binary64.fades q))
      (Binary64.write_volume
         (Binary64.tick_volume cos (Binary64.originalVolume f) (Binary64.delta f)
            (Binary64.ticks f) (Binary64.tick f)) q).
Proof. intros Hslot Hrun. unfold Binary64.fire. by rewrite Hslot, Hrun. Qed.

Lemma double_fire_stopped timer f q :
  Binary64.fades q !! timer = Some f → Binary64.running f = false →
  Binary64.fire cos timer q = q.
Proof. intros Hslot Hrun. unfold Binary64.fire. by rewrite Hslot, Hrun. Qed.

Lemma double_iter_mid f (N : Z) (k : nat) :
  Binary64.tick f = 1%Z → Binary64.F2Z (Binary64.ticks f) = Some N →
  (Z.of_nat k < N)%Z →
  Nat.iter k Binary64.next_fade f = Binary64.at_tick (1 + Z.of_nat k) f.
Proof.
  intros Htick HN. induction k as [| k IH]; intros Hk.
  - destruct f. simpl in Htick. by subst.
  - rewrite Nat.iter_succ, IH by lia.
    unfold Binary64.next_fade, Binary64.completed.
    cbn [Binary64.tick Binary64.ticks Binary64.at_tick]. rewrite HN.
    rewrite (proj2 (Z.eqb_neq _ _)) by lia.
    unfold Binary64.at_tick. cbn. f_equal. lia.
Qed.

Lemma double_iter_end f (N : Z) :
  Binary64.tick f = 1%Z → Binary64.F2Z (Binary64.ticks f) = Some N → (1 ≤ N)%Z →
  Nat.iter (Z.to_nat N) Binary64.next_fade f =
    Binary64.finished (Binary64.at_tick (N + 1) f).
Proof.
  intros Htick HN H1.
  destruct (Z.to_nat N) as [| k] eqn:Hk; [lia |].
  rewrite Nat.iter_succ, (double_iter_mid f N k) by (done || lia).
  unfold Binary64.next_fade, Binary64.completed.
  cbn [Binary64.tick Binary64.ticks Binary64.at_tick]. rewrite HN.
  rewrite (proj2 (Z.eqb_eq _ _)) by lia.
  unfold Binary64.finished, Binary64.at_tick. cbn. f_equal. lia.
Qed.


Lemma double_setVolume_fades (v fadeMs ms : float) p :
  (v <? 0)%float = false → (100 <? v)%float = false →
  Binary64.js_not (v / 100 - Binary64.volume p) = false →
  Binary64.js_not fadeMs = false → Binary64.js_not ms = false →
  Binary64.setVolume v fadeMs ms p =
    (OfFade (length (Binary64.fades p)),
     Binary64.with_fades
       (Binary64.fades p ++
          [Binary64.mkFade (Binary64.volume p) (v / 100 - Binary64.volume p)
             (Binary64.floor (fadeMs / ms)) 1 ms true false]) p).
Proof.
  intros Hlo Hhi Hd Hf Hm. unfold Binary64.setVolume.
  by rewrite Hlo, Hhi, Hd, Hf, Hm.
Qed.

Section OneDoubleFade.
Variables (timer : nat) (f : Binary64.Fade) (N : Z) (p : Binary64.Player).
Hypothesis Hslot : Binary64.fades p !! timer = Some f.
Hypothesis Hrun : Binary64.running f = true.
Hypothesis Hres : Binary64.resolved f = false.
Hypothesis Htick : Binary64.tick f = 1%Z.
Hypothesis HN : Binary64.F2Z (Binary64.ticks f) = Some N.




End OneDoubleFade.
End Doubles.








Section NeverResolves.
Implicit Types (timer k : nat) (q : Player).

Lemma fire_overshot timer q : overshot timer q → overshot timer (fire timer q).
Proof.
  intros (f & Hslot & Hrun & Hres & Hticks & Hquiet).
  unfold fire. rewrite Hslot, Hrun. unfold timer_callback.
  cbn [tick ticks at_tick]. rewrite decide_False by lia.
  rewrite drain_nil by done.
  exists (at_tick (tick f + 1) f). cbn [fades with_fades].
  split; [| cbn [running resolved ticks tick at_tick]; repeat split; done || lia].
  apply list_lookup_insert_eq. by eapply lookup_lt_Some.
Qed.

Lemma fire_n_overshot k timer q : overshot timer q → overshot timer (fire_n k timer q).
Proof.
  revert q. induction k as [| k IH]; intros q Hq; [done |].
  simpl. by apply IH, fire_overshot.
Qed.

Lemma overshot_pending timer q :
  overshot timer q → state_of (OfFade timer) q = IsPending.
Proof. intros (f & Hslot & _ & Hres & _). unfold state_of. by rewrite Hslot, Hres. Qed.

(** With [0 < fadeMs < intervalMs] the number of ticks is 0, and the fade
    [setVolume] starts is overshot from its first tick on. *)
Lemma zero_ticks_overshot (v fadeMs ms o : R) (p : Player) :
  (0 <= v <= 100)%R → volume (_audio p) = Num o → (v / 100)%R ≠ o →
  (0 < fadeMs < ms)%R → microtasks p = [] →
  (setVolume v fadeMs ms p).1 = OfFade (length (fades p)) ∧
  overshot (length (fades p)) (setVolume v fadeMs ms p).2.
Proof.
  intros Hv Hvol Hdelta Hfade Hquiet.
  rewrite (setVolume_fades v fadeMs ms o p) by (done || lra).
  split; [done |]. rewrite Zfloor_small by done.
  eexists. split; [by apply list_lookup_middle |]. done.
Qed.

(** Every tick of a fade of zero ticks writes NaN. *)
Lemma fire_zero_ticks timer q f :
  fades q !! timer = Some f → running f = true → ticks f = 0%Z →
  (0 < tick f)%Z → microtasks q = [] →
  calls (fire timer q) = calls q ++ [SetVolume NaN].
Proof.
  intros Hslot Hrun Hticks Htick Hquiet.
  unfold fire. rewrite Hslot, Hrun. unfold timer_callback.
  cbn [tick ticks at_tick]. rewrite decide_False by lia.
  rewrite drain_nil by done. rewrite Hticks.
  cbn [calls with_fades write_volume log]. unfold swing.
  rewrite decide_True by done. by destruct (originalVolume f).
Qed.
End NeverResolves.

(** C4, at [setVolume(0, 5, 13)] on a new player (volume 1): the number of
    ticks is [floor(5 / 13) = 0], the promise is the one of the timer, and it
    is still pending after any number of expiries of that timer; the first
    tick writes NaN. *)
Theorem zero_ticks_never_resolves :
  Zfloor (5 / 13) = 0%Z ∧
  (setVolume 0 5 13 (constructor "a.mp3")).1 = OfFade 0 ∧
  (∀ k, state_of (OfFade 0) (fire_n k 0 (setVolume 0 5 13 (constructor "a.mp3")).2)
        = IsPending) ∧
  calls (fire 0 (setVolume 0 5 13 (constructor "a.mp3")).2) = [Load; SetVolume NaN].
Proof.
  assert (H13 : (0 < 5 < 13)%R) by lra.
  destruct (zero_ticks_overshot 0 5 13 1 (constructor "a.mp3")) as [Hpr Hover];
    [lra | done | lra | done | done |].
  split; [by apply Zfloor_small |]. split; [done |]. split.
  - intros k. by apply overshot_pending, fire_n_overshot.
  - rewrite (setVolume_fades 0 5 13 1 (constructor "a.mp3")) by (done || lra).
    rewrite Zfloor_small by done.
    by rewrite (fire_zero_ticks 0 _ (new_fade 1 (0 / 100) 0 13 [])).
Qed.

Section SourceChange.
Implicit Types (url : string) (p q : Player) (o x : R).

Lemma swapped_calls url q :
  calls (swapped url q) =
    calls q ++ [SetSrc url] ++ (if isPlaying q then [Play] else []).
Proof.
  unfold swapped. destruct (isPlaying q); simpl; [| done].
  by rewrite <- app_assoc.
Qed.

Lemma swapped_fields url q :
  audio_src (_audio (swapped url q)) = url ∧
  volume (_audio (swapped url q)) = volume (_audio q) ∧
  fades (swapped url q) = fades q ∧
  microtasks (swapped url q) = microtasks q ∧
  isPlaying (swapped url q) = isPlaying q.
Proof.
  unfold swapped, isPlaying. destruct (paused (_audio q)) eqn:Hp; simpl; by rewrite ?Hp.
Qed.

Lemma run_reaction_swap url q :
  run_reaction (SwapSource url) q =
    (setVolume 100 1500 default_intervalMs (swapped url q)).2.
Proof. done. Qed.

(** The reaction of [set src] on a player whose volume is not 1: source
    swap, then a new fade towards 1 that nothing waits for. *)
Lemma run_reaction_fades url q x :
  volume (_audio q) = Num x → (100 / 100)%R ≠ x →
  run_reaction (SwapSource url) q =
    with_fades (fades q ++ [new_fade x (100 / 100) 115 13 []]) (swapped url q).
Proof.
  intros Hx Hne. rewrite run_reaction_swap.
  destruct (swapped_fields url q) as (_ & Hvol & Hfades & _).
  rewrite (setVolume_fades 100 1500 default_intervalMs x);
    [| lra | congruence | done | lra | unfold default_intervalMs; lra].
  unfold default_intervalMs. rewrite Zfloor_1500_13, Hfades. done.
Qed.

Lemma set_src_fades url o p :
  volume (_audio p) = Num o → (0 / 100)%R ≠ o →
  set_src url p =
    with_fades (fades p ++ [new_fade o (0 / 100) 115 13 [SwapSource url]]) p.
Proof.
  intros Hvol Hne. unfold set_src.
  rewrite (setVolume_fades 0 1500 default_intervalMs o);
    [| lra | done | done | lra | unfold default_intervalMs; lra].
  unfold default_intervalMs. rewrite Zfloor_1500_13.
  unfold then_. cbn [fades with_fades].
  rewrite list_lookup_middle by done. cbn [resolved new_fade].
  unfold with_fades. cbn [_audio _eventHandlers fades microtasks calls].
  f_equal.
  replace (length (fades p)) with (length (fades p) + 0) at 1 by lia.
  by rewrite insert_app_r.
Qed.

Lemma with_microtasks_reset q ms :
  microtasks q = [] → with_microtasks [] (with_microtasks ms q) = q.
Proof. intros H. destruct q; simpl in *; by subst. Qed.

Lemma set_src_skips url p :
  volume (_audio p) = Num (0 / 100) ∨ volume (_audio p) = NaN →
  set_src url p =
    with_microtasks (microtasks p ++ [SwapSource url]) (write_volume (Num (0 / 100)) p).
Proof.
  intros Hvol. unfold set_src.
  rewrite setVolume_skips; [done | lra | tauto].
Qed.
End SourceChange.

Section FadeOut.
Implicit Types (p q : Player) (f : Fade) (timer n : nat) (url : string).

Lemma tick_write_eased (f : Fade) (o target : R) :
  originalVolume f = Num o → delta f = Num (target - o) → ticks f ≠ 0%Z →
  tick_write f = Num (eased o target (tick f) (ticks f)).
Proof. intros Ho Hd HN. unfold tick_write. rewrite Ho, Hd. by apply tick_value. Qed.

(** An expiry that is not the last one of its fade. *)
Lemma fire_pending_tick timer f q :
  fades q !! timer = Some f → running f = true → microtasks q = [] →
  tick f ≠ ticks f →
  fire timer q =
    with_fades (<[timer := at_tick (tick f + 1) f]> (fades q))
      (write_volume (tick_write f) q).
Proof.
  intros Hslot Hrun Hquiet Hne. unfold fire. rewrite Hslot, Hrun.
  unfold timer_callback. cbn [tick ticks at_tick]. fold (tick_write f).
  rewrite decide_False by lia. by rewrite drain_nil.
Qed.

(** The last expiry: the reactions waiting on the promise run in the same
    job, after the callback. *)
Lemma fire_final_tick timer f q :
  fades q !! timer = Some f → running f = true → microtasks q = [] →
  tick f = ticks f →
  fire timer q =
    drain (with_microtasks (waiting f)
             (with_fades (<[timer := finished (at_tick (tick f + 1) f)]> (fades q))
                (write_volume (tick_write f) q))).
Proof.
  intros Hslot Hrun Hquiet Heq. unfold fire. rewrite Hslot, Hrun.
  unfold timer_callback. cbn [tick ticks at_tick]. fold (tick_write f).
  rewrite decide_True by lia.
  cbn [waiting at_tick microtasks write_volume log with_audio with_fades].
  by rewrite Hquiet.
Qed.

Lemma expiries_cons (s : interlude) (ss : list interlude) :
  expiries (s :: ss) = (if decide (s = Expiry) then 1 else 0) + expiries ss.
Proof. unfold expiries. rewrite filter_cons. by case_decide. Qed.

Section During.
Variables (p : Player) (url : string) (o : R).

Let timer : nat := length (fades p).
Let F : Fade := new_fade o (0 / 100) 115 13 [SwapSource url].

(** The player [n] ticks into the fade-out, [play] and [pause] allowed in
    between. *)
Let fading_out (n : nat) (q : Player) : Prop :=
  fades q = fades p ++ [at_tick (1 + Z.of_nat n) F] ∧
  microtasks q = [] ∧
  audio_src (_audio q) = audio_src (_audio p) ∧
  listeners (_audio q) = listeners (_audio p) ∧
  ∃ ws, calls q = calls p ++ ws ∧
        List.filter not_play ws = fade_writes o (0 / 100) 115 n.

Lemma fading_out_step (s : interlude) n q :
  fading_out n q → n + (if decide (s = Expiry) then 1 else 0) ≤ 114 →
  fading_out (n + (if decide (s = Expiry) then 1 else 0)) (interlude_step timer s q).
Proof using Type.
  intros (Hf & Hq & Hsrc & Hls & ws & Hc & Hw) Hn.
  destruct s; cbn [interlude_step];
    rewrite ?decide_True, ?decide_False in Hn |- * by done.
  - assert (Hslot : fades q !! timer = Some (at_tick (1 + Z.of_nat n) F))
      by (rewrite Hf; by apply list_lookup_middle).
    rewrite (fire_pending_tick timer _ q Hslot) by (done || (cbn; lia)).
    rewrite (tick_write_eased _ o (0 / 100)) by done.
    cbn [tick ticks at_tick F new_fade].
    replace (n + 1) with (S n) by lia. repeat split; try done.
    + cbn [fades with_fades write_volume log with_audio]. rewrite Hf.
      replace timer with (length (fades p) + 0) by (unfold timer; lia).
      rewrite insert_app_r. cbn [insert list_insert]. unfold at_tick. cbn.
      do 3 f_equal. lia.
    + exists (ws ++ [SetVolume (Num (eased o (0 / 100) (1 + Z.of_nat n) 115))]).
      cbn [calls with_fades write_volume log with_audio].
      rewrite Hc, <- app_assoc. split; [done |].
      rewrite List.filter_app, Hw, (fade_writes_S o (0 / 100) 115 n).
      cbn [List.filter not_play].
      by replace (1 + Z.of_nat n)%Z with (Z.of_nat (S n)) by lia.
  - rewrite Nat.add_0_r. repeat split; try done.
    exists (ws ++ [Play]). cbn [calls play log with_audio]. rewrite Hc, <- app_assoc.
    split; [done |]. rewrite List.filter_app, Hw. cbn. by rewrite app_nil_r.
  - rewrite Nat.add_0_r. repeat split; try done. by exists ws.
Qed.

Lemma fading_out_run (ss : list interlude) n q :
  fading_out n q → n + expiries ss ≤ 114 →
  fading_out (n + expiries ss) (run_interludes timer ss q).
Proof using Type.
  revert n q. induction ss as [| s ss IH]; intros n q Hq Hn.
  - unfold expiries. simpl. by rewrite Nat.add_0_r.
  - rewrite expiries_cons in *.
    change (run_interludes timer (s :: ss) q)
      with (run_interludes timer ss (interlude_step timer s q)).
    rewrite Nat.add_assoc. apply IH; [| lia].
    apply fading_out_step; [done | lia].
Qed.

Lemma fading_out_start :
  volume (_audio p) = Num o → (0 / 100)%R ≠ o → microtasks p = [] →
  fading_out 0 (set_src url p).
Proof using Type.
  intros Hvol Hne Hquiet. rewrite (set_src_fades url o p) by done.
  repeat split; try done. exists []. by rewrite app_nil_r.
Qed.

(** The last tick of the fade-out, in whatever state [play] and [pause]
    have left the element. *)
Lemma fading_out_end q :
  fading_out 114 q →
  fire timer q =
    with_fades
      (fades p ++ [finished (at_tick 116 F); new_fade (0 / 100) (100 / 100) 115 13 []])
      (mkPlayer
         (mkAudio (Num (0 / 100)) (paused (_audio q)) url (listeners (_audio q)))
         (_eventHandlers q) (fades q) []
         (calls q ++ [SetVolume (Num (0 / 100)); SetSrc url] ++
            (if paused (_audio q) then [] else [Play]))).
Proof using Type.
  intros (Hf & Hq & Hsrc & Hls & ws & Hc & Hw).
  assert (Hslot : fades q !! timer = Some (at_tick (1 + Z.of_nat 114) F))
    by (rewrite Hf; by apply list_lookup_middle).
  rewrite (fire_final_tick timer _ q Hslot) by done.
  rewrite (tick_write_eased _ o (0 / 100)) by done.
  cbn [tick ticks at_tick F new_fade waiting].
  change (1 + Z.of_nat 114)%Z with 115%Z. rewrite eased_last by done.
  unfold drain. cbn [microtasks with_microtasks foldl].
  rewrite (run_reaction_fades url _ (0 / 100)); [| done | lra].
  unfold swapped, isPlaying.
  cbn [_audio paused with_microtasks with_fades write_volume log with_audio].
  rewrite Hf.
  replace timer with (length (fades p) + 0) by (unfold timer; lia).
  rewrite insert_app_r. cbn [insert list_insert].
  replace (at_tick (115 + 1) (at_tick 115 F)) with (at_tick 116 F) by done.
  destruct (paused (_audio q)) eqn:Hp; cbn [negb]; apply player_ext;
    cbn [with_fades play write_src with_microtasks write_volume log with_audio
         _audio _eventHandlers fades microtasks calls volume paused audio_src
         listeners];
    rewrite ?Hp, <- ?app_assoc; done.
Qed.
End During.
End FadeOut.

Section Immediate.
Variables (p : Player) (url : string).

(** The player after a [set src] whose first [setVolume] wrote 0 at once,
    with [play] and [pause] allowed before the job ends. *)
Let swapping (q : Player) : Prop :=
  microtasks q = [SwapSource url] ∧
  volume (_audio q) = Num (0 / 100) ∧
  fades q = fades p ∧
  audio_src (_audio q) = audio_src (_audio p) ∧
  ∃ ws, calls q = calls p ++ [SetVolume (Num (0 / 100))] ++ ws ∧ Forall (λ c, c = Play) ws.

Lemma swapping_start :
  microtasks p = [] →
  volume (_audio p) = Num (0 / 100) ∨ volume (_audio p) = NaN →
  swapping (set_src url p).
Proof using Type.
  intros Hquiet Hvol. rewrite set_src_skips by done.
  repeat split; cbn; rewrite ?Hquiet; try done.
  by exists [].
Qed.

Lemma swapping_run (timer : nat) (ss : list interlude) (q : Player) :
  swapping q → expiries ss = 0 → swapping (run_interludes timer ss q).
Proof using Type.
  revert q. induction ss as [| s ss IH]; intros q Hq Hss; [done |].
  rewrite expiries_cons in Hss.
  change (run_interludes timer (s :: ss) q)
    with (run_interludes timer ss (interlude_step timer s q)).
  apply IH; [| lia].
  destruct Hq as (Hm & Hv & Hf & Hsrc & ws & Hc & Hw).
  destruct s; [rewrite decide_True in Hss by done; lia | |]; cbn [interlude_step].
  - repeat split; try done. exists (ws ++ [Play]).
    cbn [calls play log with_audio]. rewrite Hc, <- !app_assoc. split; [done |].
    apply Forall_app. split; [done |]. by repeat constructor.
  - repeat split; try done. by exists ws.
Qed.

Lemma swapping_end (q : Player) :
  swapping q →
  drain q =
    with_fades (fades p ++ [new_fade (0 / 100) (100 / 100) 115 13 []])
      (mkPlayer
         (mkAudio (Num (0 / 100)) (paused (_audio q)) url (listeners (_audio q)))
         (_eventHandlers q) (fades q) []
         (calls q ++ [SetSrc url] ++ (if paused (_audio q) then [] else [Play]))).
Proof using Type.
  intros (Hm & Hv & Hf & Hsrc & ws & Hc & Hw).
  unfold drain. rewrite Hm. cbn [foldl].
  rewrite (run_reaction_fades url _ (0 / 100)); [| done | lra].
  unfold swapped, isPlaying. cbn [_audio paused with_microtasks fades].
  rewrite Hf.
  destruct (paused (_audio q)) eqn:Hp; cbn [negb]; apply player_ext;
    cbn [with_fades play write_src with_microtasks write_volume log with_audio
         _audio _eventHandlers fades microtasks calls volume paused audio_src
         listeners];
    rewrite ?Hp, ?Hv, <- ?app_assoc; done.
Qed.
End Immediate.

(** C9. [player.src = url] on a player between jobs, with calls of [play]
    and [pause] allowed at any point afterwards.  While the volume is not yet
    0, the setter only starts a fade to 0 ([setVolume(0, 1500)], 115 ticks of
    13 ms) and hangs the source swap on its promise: up to the 114th tick the
    source is the old one, the promise is pending, and the operations
    recorded in [calls], [play] apart, are the volume writes of the fade.  The 115th
    tick writes 0 and fulfils the promise, and only then, in this order, the
    source is set to [url], [play()] is called exactly when the element is not
    paused in the state in which that last tick fires, and a fade to 1
    ([setVolume(100, 1500)]) is started with no reaction waiting for its
    promise.  When the volume is already 0 (or NaN) the first [setVolume]
    writes 0 at once, and the same steps follow when the job ends, with the
    paused flag as it is then. *)
Theorem set_src_sequence (url : string) (p : Player) (ss : list interlude) :
  microtasks p = [] →
  (∀ o, volume (_audio p) = Num o → (0 / 100)%R ≠ o → expiries ss ≤ 114 →
     audio_src (_audio (run_interludes (length (fades p)) ss (set_src url p)))
       = audio_src (_audio p) ∧
     state_of (OfFade (length (fades p)))
       (run_interludes (length (fades p)) ss (set_src url p)) = IsPending ∧
     (∃ ws, calls (run_interludes (length (fades p)) ss (set_src url p)) = calls p ++ ws ∧
            List.filter not_play ws = fade_writes o (0 / 100) 115 (expiries ss)) ∧
     (expiries ss = 114 →
        calls (fire (length (fades p))
                 (run_interludes (length (fades p)) ss (set_src url p))) =
          calls (run_interludes (length (fades p)) ss (set_src url p)) ++
            [SetVolume (Num (0 / 100)); SetSrc url] ++
            (if paused (_audio (run_interludes (length (fades p)) ss (set_src url p)))
             then [] else [Play]) ∧
        audio_src (_audio (fire (length (fades p))
                             (run_interludes (length (fades p)) ss (set_src url p)))) = url ∧
        paused (_audio (fire (length (fades p))
                          (run_interludes (length (fades p)) ss (set_src url p)))) =
          paused (_audio (run_interludes (length (fades p)) ss (set_src url p))) ∧
        fades (fire (length (fades p))
                 (run_interludes (length (fades p)) ss (set_src url p))) =
          fades p ++
            [finished (at_tick 116 (new_fade o (0 / 100) 115 13 [SwapSource url]));
             new_fade (0 / 100) (100 / 100) 115 13 []] ∧
        microtasks (fire (length (fades p))
                      (run_interludes (length (fades p)) ss (set_src url p))) = [] ∧
        state_of (OfFade (length (fades p)))
          (fire (length (fades p))
             (run_interludes (length (fades p)) ss (set_src url p))) = IsFulfilled)) ∧
  (volume (_audio p) = Num (0 / 100) ∨ volume (_audio p) = NaN → expiries ss = 0 →
     (∃ ws, calls (run_interludes (length (fades p)) ss (set_src url p)) =
              calls p ++ [SetVolume (Num (0 / 100))] ++ ws ∧
            Forall (λ c, c = Play) ws) ∧
     calls (drain (run_interludes (length (fades p)) ss (set_src url p))) =
       calls (run_interludes (length (fades p)) ss (set_src url p)) ++
         [SetSrc url] ++
         (if paused (_audio (run_interludes (length (fades p)) ss (set_src url p)))
          then [] else [Play]) ∧
     audio_src (_audio (drain (run_interludes (length (fades p)) ss (set_src url p))))
       = url ∧
     fades (drain (run_interludes (length (fades p)) ss (set_src url p))) =
       fades p ++ [new_fade (0 / 100) (100 / 100) 115 13 []] ∧
     microtasks (drain (run_interludes (length (fades p)) ss (set_src url p))) = []).
Proof.
  intros Hquiet. split.
  - intros o Hvol Hne Hss.
    set (q := run_interludes (length (fades p)) ss (set_src url p)).
    pose proof (fading_out_run p url o ss 0 (set_src url p)
                  (fading_out_start p url o Hvol Hne Hquiet) Hss) as Hq.
    rewrite Nat.add_0_l in Hq. fold q in Hq.
    pose proof Hq as (Hf & Hm & Hsrc & Hls & Hcalls).
    split; [done |]. split.
    { unfold state_of. rewrite Hf. by rewrite list_lookup_middle. }
    split; [done |]. intros H114. rewrite H114 in Hq.
    rewrite (fading_out_end p url o q Hq).
    cbn [calls _audio audio_src paused fades microtasks with_fades].
    repeat split; try done.
    unfold state_of. cbn [fades with_fades].
    by rewrite list_lookup_middle.
  - intros Hvol Hss.
    pose proof (swapping_run p url (length (fades p)) ss (set_src url p)
                  (swapping_start p url Hquiet Hvol) Hss) as Hq.
    rewrite (swapping_end p url _ Hq).
    destruct Hq as (_ & _ & _ & _ & Hcalls).
    cbn [calls _audio audio_src paused fades microtasks with_fades].
    repeat split; done.
Qed.

(** [play()] ten ticks into the fade-out of a player that was paused when
    its source was assigned: the element is playing when the last tick
    fires. *)
Lemma set_src_sequence_witness :
  calls (fire 0 (run_interludes 0
                   (replicate 10 Expiry ++ [CallPlay] ++ replicate 104 Expiry)
                   (set_src "b.mp3" (constructor "a.mp3")))) =
    calls (run_interludes 0
             (replicate 10 Expiry ++ [CallPlay] ++ replicate 104 Expiry)
             (set_src "b.mp3" (constructor "a.mp3"))) ++
      [SetVolume (Num (0 / 100)); SetSrc "b.mp3"] ++
      (if paused (_audio (run_interludes 0
                            (replicate 10 Expiry ++ [CallPlay] ++ replicate 104 Expiry)
                            (set_src "b.mp3" (constructor "a.mp3"))))
       then [] else [Play]).
Proof.
  refine (proj1 (proj2 (proj2 (proj2
    (proj1 (set_src_sequence "b.mp3" (constructor "a.mp3")
              (replicate 10 Expiry ++ [CallPlay] ++ replicate 104 Expiry) _)
       1%R _ _ _))) _)).
  - reflexivity.
  - reflexivity.
  - lra.
  - vm_compute. lia.
  - reflexivity.
Defined.


(** * Further properties of the registry *)

Section RegistryFrame.
Implicit Types (p : Player) (event : string) (h : handler)
  (eh : list slot) (i k : nat).

Lemma removeEventListener_none event p :
  _audio (removeEventListener event None p) = _audio p.
Proof. unfold removeEventListener. simpl. by destruct (_audio p). Qed.

Lemma removeEventListener_listeners event h p :
  listeners (_audio (removeEventListener event (Some h) p)) =
    filter (λ l, l ≠ (event, h)) (listeners (_audio p)).
Proof. done. Qed.

Lemma off_audio event handlerIndex eh p :
  _eventHandlers p !! event = Some eh → eh ≠ [] →
  off event handlerIndex p =
    with_eventHandlers (_eventHandlers (off event handlerIndex p))
      match handlerIndex with
      | Some i => removeEventListener event (callback_of (eh !! i)) p
      | None => (off_each event (length eh) 0 eh p).2
      end.
Proof.
  intros Hev Hnil. unfold off. rewrite Hev.
  rewrite decide_False by (by destruct eh).
  destruct handlerIndex as [i |]; simpl; [done |].
  by destruct (off_each event (length eh) 0 eh p) as [eh' p'].
Qed.

Lemma off_each_keeps_listener event count index eh p x :
  x.1 ≠ event → x ∈ listeners (_audio p) →
  x ∈ listeners (_audio (off_each event count index eh p).2).
Proof.
  intros Hx. revert index eh p.
  induction count as [| count IH]; intros index eh p Hin; simpl; [done |].
  destruct (eh !! index) as [[g | |] |]; try by apply IH.
  apply IH. rewrite removeEventListener_listeners.
  apply list_elem_of_filter. split; [| done].
  intros ->. by apply Hx.
Qed.

Lemma off_each_no_handlers event count index eh p :
  (∀ i h, eh !! i ≠ Some (Handler h)) →
  _audio (off_each event count index eh p).2 = _audio p.
Proof.
  revert index eh p.
  induction count as [| count IH]; intros index eh p Hno; simpl; [done |].
  destruct (eh !! index) as [[g | |] |] eqn:Hi.
  - by destruct (Hno index g).
  - rewrite IH; [apply removeEventListener_none |].
    intros i h Hih.
    assert (index < length eh) by (by eapply lookup_lt_Some).
    rewrite array_set_in_range in Hih by done.
    destruct (decide (index = i)) as [-> | Hne].
    + by rewrite list_lookup_insert_eq in Hih.
    + rewrite list_lookup_insert_ne in Hih by done. by destruct (Hno i h).
  - by apply IH.
  - by apply IH.
Qed.

Lemma off_keeps_other_listeners event handlerIndex p x :
  x.1 ≠ event → x ∈ listeners (_audio p) →
  x ∈ listeners (_audio (off event handlerIndex p)).
Proof.
  intros Hx Hin.
  destruct (_eventHandlers p !! event) as [eh |] eqn:Hev;
    [| rewrite off_missing; [done | unfold sequence_of; by rewrite Hev]].
  destruct (decide (eh = [])) as [-> | Hnil];
    [rewrite off_missing; [done | unfold sequence_of; by rewrite Hev] |].
  rewrite (off_audio _ _ _ _ Hev Hnil). cbn [_audio with_eventHandlers].
  destruct handlerIndex as [i |]; [| by apply off_each_keeps_listener].
  destruct (callback_of (eh !! i)) as [g |]; [| by rewrite removeEventListener_none].
  rewrite removeEventListener_listeners. apply list_elem_of_filter.
  split; [| done]. intros ->. by apply Hx.
Qed.

Lemma on_listeners event h p x :
  x ∈ listeners (_audio (on event h p).2) ↔ x ∈ listeners (_audio p) ∨ x = (event, h).
Proof.
  rewrite on_eq. cbn [snd _audio with_eventHandlers addEventListener log with_audio listeners].
  case_decide as Hin.
  - split; [auto |]. intros [? | ->]; done.
  - rewrite elem_of_app, list_elem_of_singleton. done.
Qed.

Lemma slot_spared event k o s p :
  sequence_of event p !! k = Some s → spares event k o →
  sequence_of event (apply_op o p) !! k = Some s.
Proof.
  intros Hk Hsp. destruct o as [e g | e [i |]]; unfold apply_op; cbn [spares] in Hsp.
  - destruct (decide (e = event)) as [-> | Hne].
    + rewrite on_sequence. by apply lookup_app_l_Some.
    + by rewrite on_sequence_ne.
  - destruct (decide (e = event)) as [-> | Hne]; [| by rewrite off_sequence_ne].
    destruct Hsp as [? | Hik]; [done |].
    unfold sequence_of in *.
    destruct (_eventHandlers p !! event) as [eh |] eqn:Hev; [| done].
    simpl in Hk. assert (eh ≠ []) as Hnil by (intros ->; done).
    rewrite (off_eventHandlers _ _ _ _ Hev Hnil), lookup_insert_eq. simpl.
    rewrite array_set_lookup_ne; [done | by eapply lookup_lt_Some | done].
  - by rewrite off_sequence_ne.
Qed.
End RegistryFrame.

(** X1. The handle [on] returns addresses the handler it registered for as
    long as no [off] names that handle or clears the event: after any such
    operations the element at the handle is still that handler, and [off]
    with the handle then turns exactly that element into [null]. *)
Theorem handle_addresses_handler (event : string) (h : handler) (p : Player)
    (os : list registry_op) :
  Forall (spares event (on event h p).1) os →
  sequence_of event (apply_ops os (on event h p).2) !! (on event h p).1
    = Some (Handler h) ∧
  sequence_of event
    (off event (Some (on event h p).1) (apply_ops os (on event h p).2))
    !! (on event h p).1 = Some Null.
Proof.
  intros Hos.
  assert (Hk : sequence_of event (apply_ops os (on event h p).2) !! (on event h p).1
               = Some (Handler h)).
  { assert (Hstart : sequence_of event (on event h p).2 !! (on event h p).1
                     = Some (Handler h)).
    { rewrite on_sequence, on_eq. cbn [fst]. by apply list_lookup_middle. }
    remember (on event h p).1 as k eqn:Ek. remember (on event h p).2 as q eqn:Eq.
    clear Ek Eq. revert q Hstart.
    induction Hos as [| o os Ho _ IH]; intros q Hq; [done |].
    change (apply_ops (o :: os) q) with (apply_ops os (apply_op o q)).
    by apply IH, slot_spared. }
  split; [done |].
  set (q := apply_ops os (on event h p).2) in *.
  set (k := (on event h p).1) in *.
  unfold sequence_of in *.
  destruct (_eventHandlers q !! event) as [eh |] eqn:Hev; [| done].
  simpl in Hk. assert (eh ≠ []) as Hnil by (intros ->; done).
  rewrite (off_eventHandlers _ _ _ _ Hev Hnil), lookup_insert_eq. simpl.
  rewrite array_set_in_range by (by eapply lookup_lt_Some).
  apply list_lookup_insert_eq. by eapply lookup_lt_Some.
Qed.

Lemma handle_addresses_handler_witness :
  sequence_of "ended"
    (apply_ops [On "ended" (Fn 1); Off "ended" (Some 1); Off "play" None]
       (on "ended" (Fn 0) (constructor "a.mp3")).2) !! 0
  = Some (Handler (Fn 0)).
Proof.
  apply (handle_addresses_handler "ended" (Fn 0) (constructor "a.mp3")
           [On "ended" (Fn 1); Off "ended" (Some 1); Off "play" None]).
  constructor; [exact I |].
  constructor; [right; discriminate |].
  constructor; [discriminate | constructor].
Defined.

Lemma off_handle_removes_parts (event : string) (i : nat) (h : handler)
    (eh : list slot) (p : Player) :
  _eventHandlers p !! event = Some eh → eh !! i = Some (Handler h) →
  (∀ j, j ≠ i → sequence_of event (off event (Some i) p) !! j = eh !! j) ∧
  listeners (_audio (off event (Some i) p)) =
    filter (λ l, l ≠ (event, h)) (listeners (_audio p)).
Proof.
  intros Hev Hi.
  assert (eh ≠ []) as Hnil by (intros ->; done).
  split.
  - intros j Hj. unfold sequence_of.
    rewrite (off_eventHandlers _ _ _ _ Hev Hnil), lookup_insert_eq. simpl.
    rewrite array_set_in_range by (by eapply lookup_lt_Some).
    by rewrite list_lookup_insert_ne.
  - rewrite (off_audio _ _ _ _ Hev Hnil). cbn [_audio with_eventHandlers].
    by rewrite Hi.
Qed.

(** X2. [off] with the handle of a live entry: that element alone becomes
    [null] (every other index and the length are kept),
    [removeEventListener] is called once with its handler, and the handler is
    no longer a listener of the event. *)
Theorem off_handle_removes (event : string) (i : nat) (h : handler)
    (eh : list slot) (p : Player) :
  _eventHandlers p !! event = Some eh → eh !! i = Some (Handler h) →
  _eventHandlers (off event (Some i) p) = <[event := <[i := Null]> eh]> (_eventHandlers p) ∧
  length (sequence_of event (off event (Some i) p)) = length eh ∧
  (∀ j, j ≠ i → sequence_of event (off event (Some i) p) !! j = eh !! j) ∧
  calls (off event (Some i) p) = calls p ++ [RemoveEventListener event (Some h)] ∧
  listeners (_audio (off event (Some i) p)) =
    filter (λ l, l ≠ (event, h)) (listeners (_audio p)) ∧
  (event, h) ∉ listeners (_audio (off event (Some i) p)).
Proof.
  intros Hev Hi.
  assert (eh ≠ []) as Hnil by (intros ->; done).
  assert (i < length eh) as Hlt by (by eapply lookup_lt_Some).
  assert (Hmap : _eventHandlers (off event (Some i) p) =
                 <[event := <[i := Null]> eh]> (_eventHandlers p)).
  { rewrite (off_eventHandlers _ _ _ _ Hev Hnil). by rewrite array_set_in_range. }
  assert (Hseq : sequence_of event (off event (Some i) p) = <[i := Null]> eh).
  { unfold sequence_of. by rewrite Hmap, lookup_insert_eq. }
  assert (Hls : listeners (_audio (off event (Some i) p)) =
                filter (λ l, l ≠ (event, h)) (listeners (_audio p))).
  { rewrite (off_audio _ _ _ _ Hev Hnil). cbn [_audio with_eventHandlers].
    by rewrite Hi. }
  split; [done |]. rewrite Hseq, Hls. repeat split.
  - by rewrite length_insert.
  - intros j Hj. by rewrite list_lookup_insert_ne.
  - rewrite (off_audio _ _ _ _ Hev Hnil). cbn [calls with_eventHandlers].
    by rewrite Hi.
  - rewrite list_elem_of_filter. by intros [? _].
Qed.

Lemma off_handle_removes_witness :
  sequence_of "ended"
    (off "ended" (Some 0)
       (on "ended" (Fn 1) (on "ended" (Fn 0) (constructor "a.mp3")).2).2) !! 1
  = Some (Handler (Fn 1)).
Proof.
  refine (eq_trans (proj1 (proj2 (proj2
    (off_handle_removes "ended" 0 (Fn 0) [Handler (Fn 0); Handler (Fn 1)]
       (on "ended" (Fn 1) (on "ended" (Fn 0) (constructor "a.mp3")).2).2 _ _))) 1 _) _).
  - reflexivity.
  - reflexivity.
  - lia.
  - reflexivity.
Defined.

(** X3. Operations on one event leave every other event alone: the sequence
    of the other event is unchanged and none of its listeners is removed
    from the element. *)
Theorem other_events_untouched (os : list registry_op) (event : string) (p : Player) :
  Forall (λ o, op_event o ≠ event) os →
  sequence_of event (apply_ops os p) = sequence_of event p ∧
  (∀ h, (event, h) ∈ listeners (_audio p) →
        (event, h) ∈ listeners (_audio (apply_ops os p))).
Proof.
  intros Hos. split; [by apply apply_ops_other_events |].
  revert p. induction Hos as [| o os Ho _ IH]; intros p h Hin; [done |].
  change (apply_ops (o :: os) p) with (apply_ops os (apply_op o p)).
  apply IH. destruct o as [e g | e i]; unfold apply_op, op_event in *.
  - apply on_listeners. by left.
  - apply off_keeps_other_listeners; [| done]. simpl. congruence.
Qed.

Lemma other_events_untouched_witness :
  ("play", Fn 7) ∈
    listeners (_audio (apply_ops [On "ended" (Fn 7); Off "ended" None]
                         (on "play" (Fn 7) (constructor "a.mp3")).2)).
Proof.
  apply (other_events_untouched [On "ended" (Fn 7); Off "ended" None] "play"
           (on "play" (Fn 7) (constructor "a.mp3")).2).
  - constructor; [discriminate |]. constructor; [discriminate | constructor].
  - apply list_elem_of_In. vm_compute. auto.
Defined.

(** X4. [off] is idempotent on the registry and on the element, whatever its
    arguments: calling it a second time with the same event and index (or
    again without index) changes neither the sequences nor the listeners,
    the volume, the source or the paused flag. *)
Theorem off_idempotent (event : string) (handlerIndex : option nat) (p : Player) :
  _eventHandlers (off event handlerIndex (off event handlerIndex p)) =
    _eventHandlers (off event handlerIndex p) ∧
  _audio (off event handlerIndex (off event handlerIndex p)) =
    _audio (off event handlerIndex p).
Proof.
  destruct (_eventHandlers p !! event) as [eh |] eqn:Hev;
    [| rewrite !(off_missing event handlerIndex p);
       done || (unfold sequence_of; by rewrite Hev)].
  destruct (decide (eh = [])) as [-> | Hnil];
    [rewrite !(off_missing event handlerIndex p);
       done || (unfold sequence_of; by rewrite Hev) |].
  set (q := off event handlerIndex p).
  set (eh1 := match handlerIndex with
              | Some i => array_set i Null eh
              | None => nulled <$> eh
              end).
  assert (Hq : _eventHandlers q !! event = Some eh1).
  { unfold q. by rewrite (off_eventHandlers _ _ _ _ Hev Hnil), lookup_insert_eq. }
  assert (Hnil1 : eh1 ≠ []).
  { intros Heq. apply (f_equal length) in Heq. unfold eh1 in Heq.
    destruct handlerIndex; [rewrite array_set_length in Heq | rewrite length_fmap in Heq];
      destruct eh; simpl in *; done || lia. }
  assert (Hfix : match handlerIndex with
                 | Some i => array_set i Null eh1
                 | None => nulled <$> eh1
                 end = eh1).
  { unfold eh1. destruct handlerIndex as [i |].
    - assert (array_set i Null eh !! i = Some Null) as Hi.
      { unfold array_set. case_decide.
        - by apply list_lookup_insert_eq.
        - rewrite lookup_app_r by lia.
          rewrite lookup_app_r by (rewrite length_replicate; lia).
          rewrite length_replicate.
          by replace (i - length eh - (i - length eh)) with 0 by lia. }
      rewrite array_set_in_range by (by eapply lookup_lt_Some).
      by apply list_insert_id.
    - rewrite <- list_fmap_compose. apply list_fmap_ext. by intros _ [] _. }
  split.
  - rewrite (off_eventHandlers _ _ _ _ Hq Hnil1), Hfix. by apply insert_id.
  - rewrite (off_audio _ _ _ _ Hq Hnil1). cbn [_audio with_eventHandlers].
    destruct handlerIndex as [i |].
    + assert (callback_of (eh1 !! i) = None) as ->; [| apply removeEventListener_none].
      assert (eh1 !! i = Some Null) as ->; [| done].
      rewrite <- Hfix. unfold eh1.
      rewrite (array_set_in_range i Null (array_set i Null eh)).
      * apply list_lookup_insert_eq. rewrite array_set_length. lia.
      * rewrite array_set_length. lia.
    + apply off_each_no_handlers. intros i h. unfold eh1.
      rewrite list_lookup_fmap. by destruct (eh !! i) as [[] |].
Qed.

Section Attached.
Implicit Types (p : Player) (event : string) (h : handler).

Lemma on_keeps_attached event h p :
  attached_are_live p → attached_are_live (on event h p).2.
Proof.
  intros Hinv e g Hin. apply on_listeners in Hin as [Hin | [= -> ->]].
  - destruct (decide (event = e)) as [-> | Hne].
    + rewrite on_sequence. apply elem_of_app. left. by apply Hinv.
    + rewrite on_sequence_ne by done. by apply Hinv.
  - rewrite on_sequence. apply elem_of_app. right. by apply list_elem_of_singleton.
Qed.

Lemma off_keeps_attached event handlerIndex p :
  attached_are_live p → attached_are_live (off event handlerIndex p).
Proof.
  intros Hinv.
  destruct (_eventHandlers p !! event) as [eh |] eqn:Hev;
    [| rewrite off_missing; [done | unfold sequence_of; by rewrite Hev]].
  destruct (decide (eh = [])) as [-> | Hnil];
    [rewrite off_missing; [done | unfold sequence_of; by rewrite Hev] |].
  assert (Hseq : sequence_of event p = eh) by (unfold sequence_of; by rewrite Hev).
  intros e g Hin.
  rewrite (off_audio _ _ _ _ Hev Hnil) in Hin. cbn [_audio with_eventHandlers] in Hin.
  destruct handlerIndex as [i |].
  - assert ((e, g) ∈ listeners (_audio p) ∧
            (e = event → eh !! i ≠ Some (Handler g))) as [Hold Hnot].
    { destruct (eh !! i) as [[f | |] |] eqn:Hi; cbn [callback_of] in Hin;
        try (rewrite removeEventListener_none in Hin; by split).
      rewrite removeEventListener_listeners in Hin.
      apply list_elem_of_filter in Hin as [Hne Hin]. split; [done |].
      intros -> [= ->]. done. }
    destruct (decide (event = e)) as [-> | Hne]; [| rewrite off_sequence_ne; auto].
    pose proof (Hinv _ _ Hold) as Hlive. rewrite Hseq in Hlive.
    apply list_elem_of_lookup_1 in Hlive as [j Hj].
    apply list_elem_of_lookup. exists j. unfold sequence_of.
    rewrite (off_eventHandlers _ _ _ _ Hev Hnil), lookup_insert_eq. simpl.
    rewrite array_set_lookup_ne; [done | by eapply lookup_lt_Some |].
    intros ->. by apply Hnot.
  - apply off_each_listeners in Hin as [Hold Hnot]; [| lia].
    destruct (decide (event = e)) as [-> | Hne]; [| rewrite off_sequence_ne; auto].
    pose proof (Hinv _ _ Hold) as Hlive. rewrite Hseq in Hlive.
    apply list_elem_of_lookup_1 in Hlive as [j Hj].
    destruct (Hnot j g); [| done | done].
    apply lookup_lt_Some in Hj. lia.
Qed.
End Attached.

(** X5. The element never keeps a listener the registry has lost track of:
    if every listener of the element is a handler in the sequence of its
    event, this is still so after any sequence of [on] and [off] calls.  It
    holds for a new player. *)
Theorem attached_listeners_stay_live (os : list registry_op) (p : Player) :
  attached_are_live p → attached_are_live (apply_ops os p).
Proof.
  revert p. induction os as [| o os IH]; intros p Hp; [done |].
  change (apply_ops (o :: os) p) with (apply_ops os (apply_op o p)).
  apply IH. destruct o as [e h | e i]; unfold apply_op.
  - by apply on_keeps_attached.
  - by apply off_keeps_attached.
Qed.

Lemma attached_listeners_stay_live_witness :
  Handler (Fn 2) ∈
    sequence_of "ended"
      (apply_ops [On "ended" (Fn 2); Off "play" None; Off "ended" (Some 0)]
         (on "ended" (Fn 0) (on "play" (Fn 1) (constructor "a.mp3")).2).2).
Proof.
  apply (attached_listeners_stay_live
           [On "ended" (Fn 2); Off "play" None; Off "ended" (Some 0)]
           (on "ended" (Fn 0) (on "play" (Fn 1) (constructor "a.mp3")).2).2).
  - intros event h Hin. apply list_elem_of_In in Hin. vm_compute in Hin.
    destruct Hin as [[= <- <-] | [[= <- <-] | []]];
      apply list_elem_of_In; vm_compute; auto.
  - apply list_elem_of_In. vm_compute. auto.
Defined.

(** X6. The converse fails by design of the element, which keeps one
    listener per handler: registering a handler attaches it, registering the
    same handler a second time for the event leaves the element's listeners
    as they were (the registry gets a second entry, the element no second
    listener), and when the first handle is then removed, the second entry is
    still a live handler in the registry but the handler is no longer a
    listener of the element. *)
Theorem duplicate_registration_detaches (event : string) (h : handler) (p : Player) :
  (on event h (on event h p).2).1 = S (on event h p).1 ∧
  (event, h) ∈ listeners (_audio (on event h p).2) ∧
  listeners (_audio (on event h (on event h p).2).2) =
    listeners (_audio (on event h p).2) ∧
  sequence_of event
    (off event (Some (on event h p).1) (on event h (on event h p).2).2)
    !! (on event h (on event h p).2).1 = Some (Handler h) ∧
  (event, h) ∉
    listeners (_audio (off event (Some (on event h p).1) (on event h (on event h p).2).2)).
Proof.
  set (eh := sequence_of event p).
  assert (Hk1 : (on event h p).1 = length eh) by (by rewrite on_eq).
  assert (Hk2 : (on event h (on event h p).2).1 = S (length eh)).
  { rewrite (on_eq event h (on event h p).2). cbn [fst].
    rewrite on_sequence, length_app. cbn [length]. fold eh. lia. }
  assert (Hev : _eventHandlers (on event h (on event h p).2).2 !! event
                = Some ((eh ++ [Handler h]) ++ [Handler h])).
  { rewrite (on_eq event h (on event h p).2). cbn [snd _eventHandlers with_eventHandlers].
    by rewrite lookup_insert_eq, on_sequence. }
  assert (Hi : ((eh ++ [Handler h]) ++ [Handler h]) !! length eh = Some (Handler h)).
  { rewrite lookup_app_l by (rewrite length_app; simpl; lia).
    by apply list_lookup_middle. }
  assert (Hin : (event, h) ∈ listeners (_audio (on event h p).2))
    by (apply on_listeners; by right).
  rewrite Hk1, Hk2.
  destruct (off_handle_removes_parts event (length eh) h _ _ Hev Hi) as (Hseq & Hls).
  split; [done |]. split; [done |]. split; [| split].
  - rewrite (on_eq event h (on event h p).2).
    cbn [snd _audio with_eventHandlers addEventListener log with_audio listeners].
    by rewrite decide_True.
  - rewrite Hseq by lia. rewrite lookup_app_r by (rewrite length_app; simpl; lia).
    rewrite length_app. simpl. by replace (S (length eh) - (length eh + 1)) with 0 by lia.
  - rewrite Hls, list_elem_of_filter. by intros [? _].
Qed.

(** * Further properties of the fader *)

Section Unwatched.
Implicit Types (p q : Player) (f : Fade) (timer k : nat) (o target : R).

Lemma with_microtasks_nil q : microtasks q = [] → with_microtasks [] q = q.
Proof. intros H. destruct q; simpl in *; by subst. Qed.

(** One expiry of a running timer whose promise nobody waits for. *)
Lemma fire_unwatched timer f q :
  fades q !! timer = Some f → running f = true → waiting f = [] →
  microtasks q = [] →
  fire timer q =
    with_fades (<[timer := next_fade f]> (fades q)) (write_volume (tick_write f) q).
Proof.
  intros Hslot Hrun Hwait Hquiet. unfold fire. rewrite Hslot, Hrun.
  unfold timer_callback, next_fade. cbn [tick ticks at_tick].
  fold (tick_write f). case_decide.
  - cbn [waiting at_tick microtasks write_volume log with_audio with_fades].
    rewrite Hwait, Hquiet. cbn [app].
    rewrite drain_nil by done. by apply with_microtasks_nil.
  - by rewrite drain_nil.
Qed.

Lemma next_fade_fields f :
  originalVolume (next_fade f) = originalVolume f ∧
  delta (next_fade f) = delta f ∧
  ticks (next_fade f) = ticks f ∧
  (waiting f = [] → waiting (next_fade f) = []).
Proof. unfold next_fade. by case_decide. Qed.

Lemma eased_within o target (t N : Z) : between o target (eased o target t N).
Proof.
  unfold between, eased.
  pose proof (COS_bound (PI * IZR t / IZR N)) as [Hlo Hhi].
  set (c := cos (PI * IZR t / IZR N)) in *.
  destruct (Rle_dec o target); [left | right]; nra.
Qed.

End Unwatched.

Section FadeFrame.
Variable p : Player.

Let timer : nat := length (fades p).

(** What an unwatched fade of the timer set next leaves as it was. *)
Let framed (q : Player) : Prop :=
  _eventHandlers q = _eventHandlers p ∧
  paused (_audio q) = paused (_audio p) ∧
  audio_src (_audio q) = audio_src (_audio p) ∧
  listeners (_audio q) = listeners (_audio p) ∧
  (∃ ws, calls q = calls p ++ ws ∧ Forall volume_write ws) ∧
  (∀ i f, fades p !! i = Some f → fades q !! i = Some f) ∧
  microtasks q = [] ∧
  (∀ f, fades q !! timer = Some f → waiting f = []).

Lemma framed_fire q : framed q → framed (fire timer q).
Proof.
  intros Hq.
  pose proof Hq
    as (Hmap & Hpaused & Hsrc & Hls & (ws & Hcalls & Hws) & Hfades & Hquiet & Hwait).
  destruct (fades q !! timer) as [f |] eqn:Hslot;
    [| unfold fire; by rewrite Hslot].
  destruct (running f) eqn:Hrun;
    [| by rewrite (fire_stopped _ _ _ Hslot Hrun)].
  rewrite (fire_unwatched timer f q) by auto.
  repeat split; try done.
  - exists (ws ++ [SetVolume (tick_write f)]).
    cbn [calls with_fades write_volume log with_audio].
    rewrite Hcalls, <- app_assoc. split; [done |].
    apply Forall_app. split; [done |]. repeat constructor. by eexists.
  - intros i g Hi. cbn [fades with_fades write_volume log with_audio].
    rewrite list_lookup_insert_ne; [by apply Hfades |].
    apply lookup_lt_Some in Hi. unfold timer. lia.
  - intros g. cbn [fades with_fades write_volume log with_audio].
    rewrite list_lookup_insert_eq by (by eapply lookup_lt_Some).
    intros [= <-]. apply next_fade_fields. by apply Hwait.
Qed.

Lemma framed_fire_n k q : framed q → framed (fire_n k timer q).
Proof.
  revert q. induction k as [| k IH]; intros q Hq; [done |].
  simpl. by apply IH, framed_fire.
Qed.

Lemma framed_setVolume v fadeMs ms :
  microtasks p = [] → framed (setVolume v fadeMs ms p).2.
Proof.
  intros Hquiet. unfold setVolume.
  destruct (bool_decide (v < 0)%R || bool_decide (100 < v)%R).
  { repeat split; try done.
    - exists []. by rewrite app_nil_r.
    - intros f Hf. apply lookup_lt_Some in Hf. cbn [snd] in Hf. unfold timer in Hf. lia. }
  destruct (js_not (js_sub (Num (v / 100)) (volume (_audio p)))
            || js_not (Num fadeMs) || js_not (Num ms)).
  - repeat split; try done.
    + eexists. split; [done |]. repeat constructor. by eexists.
    + intros f Hf. apply lookup_lt_Some in Hf. simpl in Hf. unfold timer in Hf. lia.
  - repeat split; try done.
    + exists []. by rewrite app_nil_r.
    + intros i f Hi. simpl. by apply lookup_app_l_Some.
    + intros f. simpl. unfold timer. rewrite list_lookup_middle by done.
      by intros [= <-].
Qed.
End FadeFrame.

(** X7. A fade touches nothing but the volume.  Whatever its arguments,
    [setVolume] and any number of expiries of the timer it may have set leave
    the registry, the listeners, the source and the paused flag as they were,
    make no call on the element other than volume writes, and leave every
    fade that was already in flight exactly as it was: a new fade never
    cancels or alters an earlier one. *)
Theorem fade_only_writes_volume (v fadeMs ms : R) (p : Player) (k : nat) :
  microtasks p = [] →
  _eventHandlers (fire_n k (length (fades p)) (setVolume v fadeMs ms p).2)
    = _eventHandlers p ∧
  paused (_audio (fire_n k (length (fades p)) (setVolume v fadeMs ms p).2))
    = paused (_audio p) ∧
  audio_src (_audio (fire_n k (length (fades p)) (setVolume v fadeMs ms p).2))
    = audio_src (_audio p) ∧
  listeners (_audio (fire_n k (length (fades p)) (setVolume v fadeMs ms p).2))
    = listeners (_audio p) ∧
  (∃ ws, calls (fire_n k (length (fades p)) (setVolume v fadeMs ms p).2) = calls p ++ ws ∧
         Forall volume_write ws) ∧
  (∀ i f, fades p !! i = Some f →
          fades (fire_n k (length (fades p)) (setVolume v fadeMs ms p).2) !! i = Some f).
Proof.
  intros Hquiet.
  pose proof (framed_fire_n p k _ (framed_setVolume p v fadeMs ms Hquiet))
    as (H1 & H2 & H3 & H4 & H5 & H6 & _).
  done.
Qed.

Lemma fade_only_writes_volume_witness :
  paused (_audio (fire_n 200 0 (setVolume 30 (-40) 13 (constructor "a.mp3")).2)) = true.
Proof.
  apply (fade_only_writes_volume 30 (-40) 13 (constructor "a.mp3") 200).
  reflexivity.
Defined.

Section Termination.
Implicit Types (timer k : nat) (q : Player).



End Termination.



Section TwoDoubleFades.
Variable cos : float → float.
Variables (fs : list Binary64.Fade) (o d1 d2 T ms : float) (N : Z).
Hypothesis HN : Binary64.F2Z T = Some N.
Hypothesis H1 : (1 ≤ N)%Z.

Let f1 : Binary64.Fade := Binary64.mkFade o d1 T 1 ms true false.
Let f2 : Binary64.Fade := Binary64.mkFade o d2 T 1 ms true false.
Let timer1 : nat := length fs.
Let timer2 : nat := S (length fs).

Lemma double_paired_writes_S (j : nat) :
  Binary64.paired_writes cos o d1 d2 T (S j) =
    Binary64.paired_writes cos o d1 d2 T j ++
      [Binary64.tick_volume cos o d1 T (Z.of_nat (S j));
       Binary64.tick_volume cos o d2 T (Z.of_nat (S j))].
Proof using Type.
  unfold Binary64.paired_writes. rewrite seq_S, flat_map_app. cbn [flat_map].
  by rewrite app_nil_r.
Qed.

Lemma double_rounds_to (p : Binary64.Player) (j : nat) :
  Binary64.fades p = fs ++ [f1; f2] → (Z.of_nat j ≤ N)%Z →
  Binary64.fades (Binary64.rounds cos j timer1 timer2 p) =
    fs ++ [Nat.iter j Binary64.next_fade f1; Nat.iter j Binary64.next_fade f2] ∧
  Binary64.writes (Binary64.rounds cos j timer1 timer2 p) =
    Binary64.writes p ++ Binary64.paired_writes cos o d1 d2 T j ∧
  (1 ≤ j → Binary64.volume (Binary64.rounds cos j timer1 timer2 p) =
            Binary64.tick_volume cos o d2 T (Z.of_nat j)).
Proof using All.
  intros Hp. induction j as [| j IH]; intros Hj.
  - split; [done |]. split; [| lia]. unfold Binary64.paired_writes. simpl.
    by rewrite app_nil_r.
  - destruct IH as (IHf & IHw & _); [lia |].
    cbn [Binary64.rounds]. unfold Binary64.round.
    set (q := Binary64.rounds cos j timer1 timer2 p) in *.
    assert (Hm1 : Nat.iter j Binary64.next_fade f1 = Binary64.at_tick (1 + Z.of_nat j) f1)
      by (apply (double_iter_mid f1 N j); done || lia).
    assert (Hm2 : Nat.iter j Binary64.next_fade f2 = Binary64.at_tick (1 + Z.of_nat j) f2)
      by (apply (double_iter_mid f2 N j); done || lia).
    assert (Hs1 : Binary64.fades q !! timer1 = Some (Nat.iter j Binary64.next_fade f1)).
    { rewrite IHf. unfold timer1. by rewrite list_lookup_middle. }
    rewrite (double_fire_running cos timer1 _ q Hs1) by (by rewrite Hm1).
    set (q1 := Binary64.with_fades _ _).
    assert (Hq1 : Binary64.fades q1 =
                  fs ++ [Nat.iter (S j) Binary64.next_fade f1;
                         Nat.iter j Binary64.next_fade f2]).
    { unfold q1. cbn [Binary64.fades Binary64.with_fades]. rewrite IHf.
      unfold timer1. rewrite insert_app_r_alt by lia.
      by rewrite Nat.sub_diag. }
    assert (Hs2 : Binary64.fades q1 !! timer2 = Some (Nat.iter j Binary64.next_fade f2)).
    { rewrite Hq1. unfold timer2. rewrite lookup_app_r by lia.
      by replace (S (length fs) - length fs) with 1 by lia. }
    rewrite (double_fire_running cos timer2 _ q1 Hs2) by (by rewrite Hm2).
    cbn [Binary64.fades Binary64.writes Binary64.volume Binary64.with_fades
         Binary64.write_volume].
    rewrite Hq1. split; [| split].
    + unfold timer2. rewrite insert_app_r_alt by lia.
      by replace (S (length fs) - length fs) with 1 by lia.
    + unfold q1. cbn [Binary64.writes Binary64.with_fades Binary64.write_volume].
      rewrite IHw, double_paired_writes_S, Hm1, Hm2, <- !app_assoc.
      cbn [Binary64.originalVolume Binary64.delta Binary64.ticks Binary64.tick
           Binary64.at_tick f1 f2 app].
      by replace (1 + Z.of_nat j)%Z with (Z.of_nat (S j)) by lia.
    + intros _. rewrite Hm2.
      cbn [Binary64.originalVolume Binary64.delta Binary64.ticks Binary64.tick
           Binary64.at_tick f2].
      by replace (1 + Z.of_nat j)%Z with (Z.of_nat (S j)) by lia.
Qed.

Lemma double_rounds_past (p : Binary64.Player) (j : nat) :
  Binary64.fades p = fs ++ [f1; f2] → Z.to_nat N ≤ j →
  Binary64.rounds cos j timer1 timer2 p =
    Binary64.rounds cos (Z.to_nat N) timer1 timer2 p.
Proof using All.
  intros Hp Hj.
  replace j with (Z.to_nat N + (j - Z.to_nat N)) by lia.
  generalize (j - Z.to_nat N). intros i.
  induction i as [| i IH]; [by rewrite Nat.add_0_r |].
  rewrite Nat.add_succ_r. cbn [Binary64.rounds]. rewrite IH.
  destruct (double_rounds_to p (Z.to_nat N) Hp) as (Hf & _); [lia |].
  rewrite (double_iter_end f1 N), (double_iter_end f2 N) in Hf by done.
  unfold Binary64.round.
  rewrite (double_fire_stopped cos timer1 (Binary64.finished (Binary64.at_tick (N + 1) f1)));
    [| rewrite Hf; unfold timer1; by rewrite list_lookup_middle | done].
  apply (double_fire_stopped cos timer2 (Binary64.finished (Binary64.at_tick (N + 1) f2)));
    [| done].
  rewrite Hf. unfold timer2. rewrite lookup_app_r by lia.
  by replace (S (length fs) - length fs) with 1 by lia.
Qed.

Lemma double_rounds_state (p : Binary64.Player) (j : nat) :
  Binary64.fades p = fs ++ [f1; f2] →
  Binary64.state_of (OfFade timer1) (Binary64.rounds cos j timer1 timer2 p) =
    (if decide (j < Z.to_nat N) then IsPending else IsFulfilled) ∧
  Binary64.state_of (OfFade timer2) (Binary64.rounds cos j timer1 timer2 p) =
    (if decide (j < Z.to_nat N) then IsPending else IsFulfilled).
Proof using All.
  intros Hp. case_decide as Hj.
  - destruct (double_rounds_to p j Hp) as (Hf & _); [lia |].
    rewrite (double_iter_mid f1 N j), (double_iter_mid f2 N j) in Hf by (done || lia).
    unfold Binary64.state_of. rewrite Hf. unfold timer1, timer2.
    rewrite list_lookup_middle by done. rewrite lookup_app_r by lia.
    by replace (S (length fs) - length fs) with 1 by lia.
  - rewrite double_rounds_past by (done || lia).
    destruct (double_rounds_to p (Z.to_nat N) Hp) as (Hf & _); [lia |].
    rewrite (double_iter_end f1 N), (double_iter_end f2 N) in Hf by done.
    unfold Binary64.state_of. rewrite Hf. unfold timer1, timer2.
    rewrite list_lookup_middle by done. rewrite lookup_app_r by lia.
    by replace (S (length fs) - length fs) with 1 by lia.
Qed.
End TwoDoubleFades.

(** X11. Two [setVolume] calls made back to back in one job, with the same
    duration and interval, both passing the range test and the guard, with
    [N = Math.floor(fadeMs / intervalMs)] at least 1 and below [2^53]; all
    numbers are doubles.  The first call writes nothing, so both fades start
    from the volume at the time of the calls.  The two timers then run side by
    side: each round of expiries writes the volume of the first fade at that
    tick and then the one of the second; both promises are pending before the
    [N]-th round and fulfilled from it on, later rounds change nothing, and
    the volume the element keeps is the write of tick [N] of the second
    fade. *)
Theorem back_to_back_fades (cos : float → float) (a b fadeMs ms : float) (N : Z)
    (p : Binary64.Player) :
  (a <? 0)%float = false → (100 <? a)%float = false →
  (b <? 0)%float = false → (100 <? b)%float = false →
  Binary64.js_not (a / 100 - Binary64.volume p) = false →
  Binary64.js_not (b / 100 - Binary64.volume p) = false →
  Binary64.js_not fadeMs = false → Binary64.js_not ms = false →
  Binary64.F2Z (Binary64.floor (fadeMs / ms)) = Some N → (1 ≤ N < 2 ^ 53)%Z →
  let timer1 := length (Binary64.fades p) in
  let timer2 := S (length (Binary64.fades p)) in
  let started :=
    (Binary64.setVolume b fadeMs ms (Binary64.setVolume a fadeMs ms p).2).2 in
  (Binary64.setVolume a fadeMs ms p).1 = OfFade timer1 ∧
  (Binary64.setVolume b fadeMs ms (Binary64.setVolume a fadeMs ms p).2).1
    = OfFade timer2 ∧
  Binary64.writes started = Binary64.writes p ∧
  (∀ j, j ≤ Z.to_nat N →
        Binary64.writes (Binary64.rounds cos j timer1 timer2 started) =
          Binary64.writes p ++
            Binary64.paired_writes cos (Binary64.volume p)
              (a / 100 - Binary64.volume p) (b / 100 - Binary64.volume p)
              (Binary64.floor (fadeMs / ms)) j) ∧
  (∀ j, Binary64.state_of (OfFade timer1)
          (Binary64.rounds cos j timer1 timer2 started) =
          (if decide (j < Z.to_nat N) then IsPending else IsFulfilled) ∧
        Binary64.state_of (OfFade timer2)
          (Binary64.rounds cos j timer1 timer2 started) =
          (if decide (j < Z.to_nat N) then IsPending else IsFulfilled)) ∧
  (∀ j, Z.to_nat N ≤ j →
        Binary64.rounds cos j timer1 timer2 started =
          Binary64.rounds cos (Z.to_nat N) timer1 timer2 started) ∧
  Binary64.volume (Binary64.rounds cos (Z.to_nat N) timer1 timer2 started) =
    Binary64.tick_volume cos (Binary64.volume p) (b / 100 - Binary64.volume p)
      (Binary64.floor (fadeMs / ms)) N.
Proof.
  intros Hla Hha Hlb Hhb Hda Hdb Hf Hm HN [H1 _] timer1 timer2 started.
  subst timer1 timer2.
  set (o := Binary64.volume p).
  set (T := Binary64.floor (fadeMs / ms)).
  set (f1 := Binary64.mkFade o (a / 100 - o) T 1 ms true false).
  set (f2 := Binary64.mkFade o (b / 100 - o) T 1 ms true false).
  assert (Ha : Binary64.setVolume a fadeMs ms p =
               (OfFade (length (Binary64.fades p)),
                Binary64.with_fades (Binary64.fades p ++ [f1]) p))
    by (by apply double_setVolume_fades).
  assert (Hb : Binary64.setVolume b fadeMs ms (Binary64.setVolume a fadeMs ms p).2 =
               (OfFade (S (length (Binary64.fades p))),
                Binary64.with_fades (Binary64.fades p ++ [f1; f2]) p)).
  { rewrite Ha. cbn [snd].
    rewrite double_setVolume_fades by done.
    cbn [Binary64.fades Binary64.volume Binary64.with_fades Binary64.writes].
    rewrite length_app, <- app_assoc. cbn [length app].
    by replace (length (Binary64.fades p) + 1) with (S (length (Binary64.fades p))) by lia. }
  assert (Hst : Binary64.fades started = Binary64.fades p ++ [f1; f2])
    by (unfold started; by rewrite Hb).
  assert (Hw0 : Binary64.writes started = Binary64.writes p)
    by (unfold started; by rewrite Hb).
  split; [by rewrite Ha |]. split; [by rewrite Hb |]. split; [done |].
  split; [| split; [| split]].
  - intros j Hj.
    destruct (double_rounds_to cos (Binary64.fades p) o (a / 100 - o) (b / 100 - o)
                T ms N HN H1 started j Hst) as (_ & Hw & _); [lia |].
    by rewrite Hw, Hw0.
  - intros j.
    by apply (double_rounds_state cos (Binary64.fades p) o (a / 100 - o) (b / 100 - o)
                T ms N HN H1 started j Hst).
  - intros j Hj.
    by apply (double_rounds_past cos (Binary64.fades p) o (a / 100 - o) (b / 100 - o)
                T ms N HN H1 started j Hst).
  - destruct (double_rounds_to cos (Binary64.fades p) o (a / 100 - o) (b / 100 - o)
                T ms N HN H1 started (Z.to_nat N) Hst) as (_ & _ & Hv); [lia |].
    rewrite Hv by lia. by rewrite Z2Nat.id by lia.
Qed.

(** [setVolume(20, 39, 13)] and then [setVolume(80, 39, 13)] on a new
    player: three rounds, six writes, the last one of the second fade. *)
Lemma back_to_back_fades_witness :
  Binary64.writes
    (Binary64.rounds (λ x, x) 3 0 1
       (Binary64.setVolume 80 39 13
          (Binary64.setVolume 20 39 13 Binary64.new_player).2).2) =
    Binary64.writes Binary64.new_player ++
      Binary64.paired_writes (λ x, x) (Binary64.volume Binary64.new_player)
        (20 / 100 - Binary64.volume Binary64.new_player)
        (80 / 100 - Binary64.volume Binary64.new_player)
        (Binary64.floor (39 / 13)) 3.
Proof.
  refine (proj1 (proj2 (proj2 (proj2
    (back_to_back_fades (λ x, x) 20 80 39 13 3 Binary64.new_player
       _ _ _ _ _ _ _ _ _ _)))) 3 _);
    reflexivity || lia.
Defined.


(** * Properties of the playback controls *)

(** X12. [toggle] is play or stop, not play or pause.  It flips the playing
    state; when it stops playback it also rewinds to position 0, so two
    toggles in a row give back the playing state with the position at 0,
    whatever it was.  It never touches the volume, the loop flag, the
    registry or a fade in flight: stopping playback does not stop a fade. *)
Theorem toggle_flips_and_rewinds (c : Controls) :
  isPlaying (player (toggle c)) = negb (isPlaying (player c)) ∧
  currentTime (toggle c) = (if isPlaying (player c) then 0%R else currentTime c) ∧
  isPlaying (player (toggle (toggle c))) = isPlaying (player c) ∧
  currentTime (toggle (toggle c)) = 0%R ∧
  volume (_audio (player (toggle c))) = volume (_audio (player c)) ∧
  loop (toggle c) = loop c ∧
  _eventHandlers (player (toggle c)) = _eventHandlers (player c) ∧
  listeners (_audio (player (toggle c))) = listeners (_audio (player c)) ∧
  fades (player (toggle c)) = fades (player c).
Proof.
  unfold toggle, isPlaying.
  destruct (paused (_audio (player c))) eqn:Hp; simpl; rewrite ?Hp; simpl; done.
Qed.
